(** * Host AI: the Agent Session Engine

    A shallow embedding of the lead scorer (App.tsx), of the knowledge
    retriever, of the live-session message handler, of the end-call
    heuristic and of the post-call pipeline (LiveAgentDemo component),
    together with the properties the design document states about them.

    Conventions.
    - JavaScript numbers that only ever hold integers (scores, lengths)
      are [Z].
    - Audio times are counted in sample frames of the 24 kHz output
      context, so [ctx.currentTime], [audioBuffer.duration] and
      [nextStartTimeRef.current] are exact integers ([Z]).
    - Strings are [string]; optional fields are [option].
    - React state is explicit: a state record holds the live values, and a
      callback that was created during one render reads the bindings of
      that render (see [Closure] below). *)

From Stdlib Require Import ZArith List String Ascii Bool Lia.
From Stdlib Require Import Sorting.Sorted Sorting.Permutation.
From Stdlib Require Import DecimalString.
From Stdlib Require Import QArith Qround Qabs Lqa.
From Stdlib Require Strings.Byte.
Import ListNotations.

Local Open Scope string_scope.
Local Open Scope list_scope.
Local Open Scope Z_scope.

(* ================================================================== *)
(** * Part I: definitions                                               *)
(* ================================================================== *)

(** ** types.ts *)

Inductive CallStatus : Type :=
| PENDING
| IN_PROGRESS
| COMPLETED
| FAILED
| BOOKED.

Definition CallStatus_eqb (a b : CallStatus) : bool :=
  match a, b with
  | PENDING, PENDING | IN_PROGRESS, IN_PROGRESS | COMPLETED, COMPLETED
  | FAILED, FAILED | BOOKED, BOOKED => true
  | _, _ => false
  end.

(** ['Positive' | 'Neutral' | 'Negative'] *)
Inductive Sentiment : Type :=
| Positive
| Neutral
| Negative.

(** [role: 'user' | 'model'] *)
Inductive Role : Type :=
| user
| model.

Module TranscriptEntry.
Record t : Type := mk
  { role : Role;
    text : string;
    timestamp : string }.
End TranscriptEntry.

Module Lead.
Record t : Type := mk
  { id : string;
    restaurantName : string;
    contactName : string;
    phone : string;
    status : CallStatus;
    cuisine : string;
    location : string;
    priceRange : string;
    lastContacted : option string;
    notes : option string;
    sentiment : option Sentiment;
    transcript : option (list TranscriptEntry.t);
    score : Z;
    recording : option string }.

(** [{ ...l, score: s }] *)
Definition with_score (l : t) (s : Z) : t :=
  mk (id l) (restaurantName l) (contactName l) (phone l) (status l)
     (cuisine l) (location l) (priceRange l) (lastContacted l) (notes l)
     (sentiment l) (transcript l) s (recording l).

(** [{ ...l, status: st }] *)
Definition with_status (l : t) (st : CallStatus) : t :=
  mk (id l) (restaurantName l) (contactName l) (phone l) st
     (cuisine l) (location l) (priceRange l) (lastContacted l) (notes l)
     (sentiment l) (transcript l) (score l) (recording l).
End Lead.

(** [category: 'objection_handling' | 'value_proposition' | 'closing_technique'] *)
Inductive Category : Type :=
| objection_handling
| value_proposition
| closing_technique.

Module KnowledgeSnippet.
Record t : Type := mk
  { id : string;
    category : Category;
    content : string;
    sourceRestaurant : string;
    timestamp : string }.
End KnowledgeSnippet.

(** ** App.tsx: the scoring algorithm *)

(** [Partial<Lead>]: every field may be missing.  Only the three fields
    that [calculateLeadScore] reads are kept. *)
Module PartialLead.
Record t : Type := mk
  { priceRange : option string;
    status : option CallStatus;
    sentiment : option Sentiment }.

Definition of_lead (l : Lead.t) : t :=
  mk (Some (Lead.priceRange l)) (Some (Lead.status l)) (Lead.sentiment l).
End PartialLead.

Definition calculateLeadScore (lead : PartialLead.t) : Z :=
  let score := 0 in
  (* 1. Base Score by Financial Potential (Price Range) *)
  let score :=
    match PartialLead.priceRange lead with
    | Some p =>
        if (p =? "$$$$")%string then score + 40
        else if (p =? "$$$")%string then score + 30
        else if (p =? "$$")%string then score + 20
        else score + 10
    | None => score + 10
    end in
  (* 2. Status Weight *)
  let score :=
    match PartialLead.status lead with
    | Some BOOKED => 100
    | Some COMPLETED => score + 10
    | Some IN_PROGRESS => score + 20
    | Some PENDING => score + 0
    | Some FAILED => score - 20
    | None => score
    end in
  (* 3. Sentiment Modifier *)
  let score :=
    match PartialLead.status lead with
    | Some BOOKED => score
    | _ =>
        match PartialLead.sentiment lead with
        | Some Positive => score + 30
        | Some Neutral => score + 5
        | Some Negative => score - 30
        | None => score
        end
    end in
  (* Clamp 0-100 *)
  Z.max 0 (Z.min 100 score).

(** [handleUpdateLead], as a function of the previous [leads] state: the
    updater handed to [setLeads]. *)
Definition handleUpdateLead (updatedData : Lead.t) (prev : list Lead.t)
  : list Lead.t :=
  let scoredLead :=
    Lead.with_score updatedData
      (calculateLeadScore (PartialLead.of_lead updatedData)) in
  map (fun l => if (Lead.id l =? Lead.id scoredLead)%string
                then scoredLead else l) prev.

(** *** The scorer as the design document words it *)

Module LeadScorerSpec.
(** Rule 1: base from price tier. *)
Definition base (tier : string) : Z :=
  if (tier =? "$$$$")%string then 40
  else if (tier =? "$$$")%string then 30
  else if (tier =? "$$")%string then 20
  else 10.

(** Rule 2: BOOKED overrides the running total, the others add. *)
Definition after_status (st : CallStatus) (running : Z) : Z :=
  match st with
  | BOOKED => 100
  | COMPLETED => running + 10
  | IN_PROGRESS => running + 20
  | PENDING => running + 0
  | FAILED => running - 20
  end.

Definition sentiment_modifier (se : option Sentiment) : Z :=
  match se with
  | Some Positive => 30
  | Some Neutral => 5
  | Some Negative => -30
  | None => 0
  end.

(** Rule 3: skipped when the status is BOOKED. *)
Definition after_sentiment (st : CallStatus) (se : option Sentiment)
  (running : Z) : Z :=
  if CallStatus_eqb st BOOKED then running
  else running + sentiment_modifier se.

(** Rule 4. *)
Definition clamp (x : Z) : Z :=
  if x <? 0 then 0 else if 100 <? x then 100 else x.

Definition score (tier : string) (st : CallStatus) (se : option Sentiment)
  : Z :=
  clamp (after_sentiment st se (after_status st (base tier))).
End LeadScorerSpec.

(** ** LiveAgentDemo: RAG logic *)

(** [String.prototype.includes]: [sub] occurs in [s] at some position. *)
Fixpoint includes (s sub : string) : bool :=
  String.prefix sub s
  || match s with
     | EmptyString => false
     | String _ s' => includes s' sub
     end.

(** [Array.prototype.sort(cmp)].  ECMAScript requires the sort to be
    stable, and for a consistent comparator the stably sorted array is
    unique, so any stable algorithm computes it; here insertion from the
    right.  [cmp a b <= 0] keeps [a], which came first, in front of [b]. *)
Fixpoint sort_insert {A : Type} (cmp : A -> A -> Z) (a : A) (l : list A)
  : list A :=
  match l with
  | [] => [a]
  | b :: l' => if cmp a b <=? 0 then a :: b :: l'
               else b :: sort_insert cmp a l'
  end.

Fixpoint Array_sort {A : Type} (cmp : A -> A -> Z) (l : list A) : list A :=
  match l with
  | [] => []
  | a :: l' => sort_insert cmp a (Array_sort cmp l')
  end.

Definition Category_eqb (a b : Category) : bool :=
  match a, b with
  | objection_handling, objection_handling
  | value_proposition, value_proposition
  | closing_technique, closing_technique => true
  | _, _ => false
  end.

(** 2. High-value keywords to look for. *)
Definition keywords : list string :=
  [ "busy"; "manager"; "expensive"; "cost"; "price"; "hostess"; "email";
    "send info"; "not interested"; "later" ].

(** An item of [scoredSnippets]: [{ snippet, score }]. *)
Module Scored.
Record t : Type := mk
  { snippet : KnowledgeSnippet.t;
    score : Z }.
End Scored.

Section RAG.

(** [String.prototype.toLowerCase] is a built-in of the platform; the
    retrieval logic is stated for whatever function it is. *)
Variable toLowerCase : string -> string.

(** 1. Context profile of the lead. *)
Definition contextText (lead : Lead.t) : string :=
  toLowerCase
    ((match Lead.notes lead with Some n => n | None => "" end)
       ++ " " ++ Lead.cuisine lead ++ " " ++ Lead.location lead)%string.

Definition historyText (lead : Lead.t) : string :=
  match Lead.transcript lead with
  | Some t => toLowerCase (String.concat " " (map TranscriptEntry.text t))
  | None => ""
  end.

Definition fullContext (lead : Lead.t) : string :=
  (contextText lead ++ " " ++ historyText lead)%string.

(** 3. The score the [kb.map] callback gives to one snippet. *)
Definition snippetScore (lead : Lead.t) (snippet : KnowledgeSnippet.t) : Z :=
  let score := 0 in
  let contentLower := toLowerCase (KnowledgeSnippet.content snippet) in
  (* Rule A: exact restaurant match *)
  let score :=
    if (KnowledgeSnippet.sourceRestaurant snippet
        =? Lead.restaurantName lead)%string
    then score + 50 else score in
  (* Rule B: cuisine match; an empty [lead.cuisine] is falsy *)
  let score :=
    if negb (Lead.cuisine lead =? "")%string
       && includes contentLower (toLowerCase (Lead.cuisine lead))
    then score + 15 else score in
  (* Rule C: context keyword overlap *)
  let score :=
    fold_left
      (fun score word =>
         if includes (fullContext lead) word && includes contentLower word
         then score + 10 else score)
      keywords score in
  (* Rule D: category weighting *)
  let score :=
    if CallStatus_eqb (Lead.status lead) FAILED
       && Category_eqb (KnowledgeSnippet.category snippet) objection_handling
    then score + 5 else score in
  let score :=
    if (Lead.priceRange lead =? "$$$$")%string
       && Category_eqb (KnowledgeSnippet.category snippet) value_proposition
    then score + 5 else score in
  (* Rule E: recency *)
  score + 1.

Definition scoredSnippets (lead : Lead.t) (kb : list KnowledgeSnippet.t)
  : list Scored.t :=
  map (fun snippet => Scored.mk snippet (snippetScore lead snippet)) kb.

Definition selectRelevantSnippets (lead : Lead.t)
  (kb : list KnowledgeSnippet.t) : list KnowledgeSnippet.t :=
  match kb with
  | [] => []
  | _ =>
      (* 4. Sort and slice *)
      map Scored.snippet
        (firstn 3
           (filter (fun item => Scored.score item >? 0)
              (Array_sort (fun a b => Scored.score b - Scored.score a)
                 (scoredSnippets lead kb))))
  end.

(** The scored items behind the result: the pipeline of step 4 before the
    final projection to snippets. *)
Definition ranked (lead : Lead.t) (kb : list KnowledgeSnippet.t)
  : list Scored.t :=
  firstn 3
    (filter (fun item => Scored.score item >? 0)
       (Array_sort (fun a b => Scored.score b - Scored.score a)
          (scoredSnippets lead kb))).

End RAG.

(** [toLowerCase] on the ASCII range, for running the retrieval on
    examples. *)
Definition ascii_toLowerCase (c : ascii) : ascii :=
  let n := nat_of_ascii c in
  if ((65 <=? n) && (n <=? 90))%nat then ascii_of_nat (n + 32) else c.

Fixpoint asciiLowerCase (s : string) : string :=
  match s with
  | EmptyString => EmptyString
  | String c s' => String (ascii_toLowerCase c) (asciiLowerCase s')
  end.

(** *** The retrieval score as the design document words it *)

Module RetrieverSpec.

(** The fixed high-value vocabulary. *)
Definition vocabulary : list string :=
  [ "busy"; "manager"; "expensive"; "cost"; "price"; "hostess"; "email";
    "send info"; "not interested"; "later" ].

Section Rules.
Variable toLowerCase : string -> string.

(** Case-insensitive containment. *)
Definition contains (haystack needle : string) : bool :=
  includes (toLowerCase haystack) (toLowerCase needle).

(** The profile of the lead: notes (if any), cuisine and location. *)
Definition profile (lead : Lead.t) : string :=
  ((match Lead.notes lead with Some n => n | None => "" end)
     ++ " " ++ Lead.cuisine lead ++ " " ++ Lead.location lead)%string.

(** The text of the prior transcript, in lower case; nothing for a lead
    that has no transcript. *)
Definition prior_transcript_text (lead : Lead.t) : string :=
  match Lead.transcript lead with
  | Some entries =>
      toLowerCase (String.concat " " (map TranscriptEntry.text entries))
  | None => ""
  end.

(** The combined context: notes + cuisine + location + prior transcript
    text, compared in lower case. *)
Definition combined_context (lead : Lead.t) : string :=
  (toLowerCase (profile lead) ++ " " ++ prior_transcript_text lead)%string.

Definition exact_match (lead : Lead.t) (s : KnowledgeSnippet.t) : Z :=
  if (KnowledgeSnippet.sourceRestaurant s =? Lead.restaurantName lead)%string
  then 50 else 0.

(** "+15 if the snippet content contains the lead's cuisine keyword", by
    containment alone. *)
Definition cuisine_match (lead : Lead.t) (s : KnowledgeSnippet.t) : Z :=
  if contains (KnowledgeSnippet.content s) (Lead.cuisine lead)
  then 15 else 0.

(** The same rule when a lead whose cuisine is empty is taken to have no
    cuisine keyword. *)
Definition cuisine_match_nonempty (lead : Lead.t) (s : KnowledgeSnippet.t)
  : Z :=
  if negb (Lead.cuisine lead =? "")%string
     && contains (KnowledgeSnippet.content s) (Lead.cuisine lead)
  then 15 else 0.

(** The vocabulary keywords present in both the combined context of the
    lead and the snippet content. *)
Definition shared_keywords (lead : Lead.t) (s : KnowledgeSnippet.t)
  : list string :=
  filter
    (fun word =>
       includes (combined_context lead) word
       && includes (toLowerCase (KnowledgeSnippet.content s)) word)
    vocabulary.

Definition keyword_overlap (lead : Lead.t) (s : KnowledgeSnippet.t) : Z :=
  10 * Z.of_nat (List.length (shared_keywords lead s)).

Definition affinity (lead : Lead.t) (s : KnowledgeSnippet.t) : Z :=
  (match Lead.status lead, KnowledgeSnippet.category s with
   | FAILED, objection_handling => 5
   | _, _ => 0
   end)
  + (if (Lead.priceRange lead =? "$$$$")%string
     then match KnowledgeSnippet.category s with
          | value_proposition => 5
          | _ => 0
          end
     else 0).

Definition tie_break : Z := 1.

(** The additive sum as claimed. *)
Definition score_claimed (lead : Lead.t) (s : KnowledgeSnippet.t) : Z :=
  exact_match lead s + cuisine_match lead s + keyword_overlap lead s
  + affinity lead s + tie_break.

(** The additive sum, no cuisine bonus for a lead without a cuisine. *)
Definition score (lead : Lead.t) (s : KnowledgeSnippet.t) : Z :=
  exact_match lead s + cuisine_match_nonempty lead s + keyword_overlap lead s
  + affinity lead s + tie_break.

End Rules.
End RetrieverSpec.

(** ** LiveAgentDemo: the live session *)

(** [String.prototype.trim] is a built-in of the platform: the handlers
    below take it as the parameter [trim], and their properties are proved
    for every such function.  [asciiTrim] strips tab, line feed, vertical
    tab, form feed, carriage return and space; on text made of ASCII
    characters it is what the built-in computes, and it is used only to run
    the handlers on ASCII examples. *)
Definition isWhiteSpace (c : ascii) : bool :=
  let n := nat_of_ascii c in
  ((9 <=? n) && (n <=? 13) || (n =? 32))%nat.

Fixpoint trimStart (s : string) : string :=
  match s with
  | EmptyString => EmptyString
  | String c s' => if isWhiteSpace c then trimStart s' else s
  end.

Fixpoint trimEnd (s : string) : string :=
  match s with
  | EmptyString => EmptyString
  | String c s' =>
      let r := trimEnd s' in
      if isWhiteSpace c && (r =? "")%string then EmptyString else String c r
  end.

Definition asciiTrim (s : string) : string := trimEnd (trimStart s).

(** Truthiness of a string: it is not empty. *)
Definition truthy (s : string) : bool := negb (s =? "")%string.

(** ['idle' | 'connecting' | 'listening' | 'speaking' | 'error'] *)
Inductive Status : Type :=
| idle
| connecting
| listening
| speaking
| error.

(** An [AudioBufferSourceNode] that has been started: its identity, the
    time passed to [source.start] and the duration of its buffer. *)
Module Source.
Record t : Type := mk
  { ident : nat;
    startTime : Z;
    duration : Z }.

Definition endTime (s : t) : Z := startTime s + duration s.
End Source.

(** The state and the refs of the component that the message handler
    touches.  [sources] is the [Set] held by [sourcesRef], in insertion
    order; [created] counts the source nodes created so far and gives each
    new node its identity. *)
Module Session.
Record t : Type := mk
  { transcripts : list TranscriptEntry.t;
    currentInput : string;
    currentOutput : string;
    status : Status;
    nextStartTime : Z;
    sources : list Source.t;
    created : nat }.

Definition setTranscripts (f : list TranscriptEntry.t -> list TranscriptEntry.t)
  (st : t) : t :=
  mk (f (transcripts st)) (currentInput st) (currentOutput st) (status st)
     (nextStartTime st) (sources st) (created st).

Definition setCurrentInput (f : string -> string) (st : t) : t :=
  mk (transcripts st) (f (currentInput st)) (currentOutput st) (status st)
     (nextStartTime st) (sources st) (created st).

Definition setCurrentOutput (f : string -> string) (st : t) : t :=
  mk (transcripts st) (currentInput st) (f (currentOutput st)) (status st)
     (nextStartTime st) (sources st) (created st).

Definition setStatus (s : Status) (st : t) : t :=
  mk (transcripts st) (currentInput st) (currentOutput st) s
     (nextStartTime st) (sources st) (created st).

Definition setNextStartTime (n : Z) (st : t) : t :=
  mk (transcripts st) (currentInput st) (currentOutput st) (status st)
     n (sources st) (created st).

Definition setSources (l : list Source.t) (st : t) : t :=
  mk (transcripts st) (currentInput st) (currentOutput st) (status st)
     (nextStartTime st) l (created st).

Definition setCreated (n : nat) (st : t) : t :=
  mk (transcripts st) (currentInput st) (currentOutput st) (status st)
     (nextStartTime st) (sources st) n.

(** The first render: [useState] and [useRef] initial values. *)
Definition mount (effectiveLead : option Lead.t) : t :=
  mk (match effectiveLead with
      | Some l => match Lead.transcript l with Some t => t | None => [] end
      | None => []
      end)
     "" "" idle 0 [] 0.
End Session.

(** [currentInput] and [currentOutput] are [const] bindings of one render
    of the component.  The [onmessage] callback is created once, by the
    [startSession] of some render, and for the whole session its free
    variables [currentInput] and [currentOutput] denote the values of that
    render; only the functional updaters [prev => ...] receive the live
    state. *)
Module Closure.
Record t : Type := mk
  { currentInput : string;
    currentOutput : string }.

Definition of_render (st : Session.t) : t :=
  mk (Session.currentInput st) (Session.currentOutput st).
End Closure.

(** [message.serverContent], reduced to what the handler reads.
    [modelTurnAudio] is [modelTurn.parts[0].inlineData.data] when it is a
    non-empty payload, given by the duration of the buffer it decodes to. *)
Module ServerContent.
Record t : Type := mk
  { inputTranscription : option string;
    outputTranscription : option string;
    turnComplete : bool;
    modelTurnAudio : option Z;
    interrupted : bool }.
End ServerContent.

(** What the handler reads from the platform while it treats one message:
    [ctx.currentTime] and [new Date().toLocaleTimeString()]. *)
Module Env.
Record t : Type := mk
  { currentTime : Z;
    localeTime : string }.
End Env.

(** [startSession]: resets the transcript and installs callbacks that close
    over the render it was called from.  Neither accumulator and neither
    audio ref is reset. *)
Definition startSession (st : Session.t) : Closure.t * Session.t :=
  (Closure.of_render st,
   Session.setStatus listening (Session.setTranscripts (fun _ => []) st)).

(** 1. Handle transcriptions.  Where the source tests and commits
    [currentInput] and [currentOutput], the callback reads its closure;
    the updaters [prev => prev + text] and [prev => [...prev, entry]] act
    on the live state. *)
Definition handleTranscriptions (trim : string -> string) (cl : Closure.t)
  (env : Env.t)
  (serverContent : ServerContent.t) (st : Session.t) : Session.t :=
  let st :=
    match ServerContent.inputTranscription serverContent with
    | Some text => Session.setCurrentInput (fun prev => prev ++ text)%string st
    | None => st
    end in
  let st :=
    match ServerContent.outputTranscription serverContent with
    | Some text => Session.setCurrentOutput (fun prev => prev ++ text)%string st
    | None => st
    end in
  if ServerContent.turnComplete serverContent then
    (* Commit transcripts to history *)
    let st :=
      if truthy (trim (Closure.currentInput cl)) then
        Session.setCurrentInput (fun _ => "")
          (Session.setTranscripts
             (fun prev =>
                prev ++ [TranscriptEntry.mk user (Closure.currentInput cl)
                           (Env.localeTime env)])
             st)
      else st in
    if truthy (trim (Closure.currentOutput cl)) then
      Session.setCurrentOutput (fun _ => "")
        (Session.setTranscripts
           (fun prev =>
              prev ++ [TranscriptEntry.mk model (Closure.currentOutput cl)
                         (Env.localeTime env)])
           st)
    else st
  else st.

(** 2. Handle audio.  [outputAudioContextRef.current] was assigned by
    [startSession] before the callbacks were installed and is never reset,
    so the guard reduces to the payload being present. *)
Definition handleAudio (env : Env.t) (serverContent : ServerContent.t)
  (st : Session.t) : Session.t :=
  match ServerContent.modelTurnAudio serverContent with
  | Some duration =>
      let st := Session.setStatus speaking st in
      let st :=
        Session.setNextStartTime
          (Z.max (Session.nextStartTime st) (Env.currentTime env)) st in
      let source :=
        Source.mk (Session.created st) (Session.nextStartTime st) duration in
      let st := Session.setCreated (S (Session.created st)) st in
      let st :=
        Session.setNextStartTime (Session.nextStartTime st + duration) st in
      Session.setSources (Session.sources st ++ [source]) st
  | None => st
  end.

(** 3. Handle interruptions. *)
Definition handleInterruptions (cl : Closure.t) (env : Env.t)
  (serverContent : ServerContent.t) (st : Session.t) : Session.t :=
  if ServerContent.interrupted serverContent then
    let st := Session.setSources [] st in
    let st := Session.setNextStartTime 0 st in
    let st := Session.setStatus listening st in
    (* Commit partial output if interrupted *)
    if truthy (Closure.currentOutput cl) then
      Session.setCurrentOutput (fun _ => "")
        (Session.setTranscripts
           (fun prev =>
              prev ++ [TranscriptEntry.mk model
                         (Closure.currentOutput cl ++ "...")%string
                         (Env.localeTime env)])
           st)
    else st
  else st.

(** [onmessage]; a message without [serverContent] changes nothing.  The
    only [await] of the handler is on [decodeAudioData], an async function
    that never suspends, so the handler resumes before the next message is
    delivered: one message is handled as one step. *)
Definition onmessage (trim : string -> string) (cl : Closure.t)
  (env : Env.t)
  (serverContent : option ServerContent.t) (st : Session.t) : Session.t :=
  match serverContent with
  | Some sc =>
      handleInterruptions cl env sc
        (handleAudio env sc (handleTranscriptions trim cl env sc st))
  | None => st
  end.

(** The ['ended'] listener of a source. *)
Definition onended (source : nat) (st : Session.t) : Session.t :=
  let st :=
    Session.setSources
      (filter (fun s => negb (Source.ident s =? source)%nat)
         (Session.sources st)) st in
  match Session.sources st with
  | [] => Session.setStatus listening st
  | _ => st
  end.

(** The events of a live session, in the order in which they are handled. *)
Inductive Event : Type :=
| Message (env : Env.t) (serverContent : option ServerContent.t)
| Ended (source : nat).

Definition step (trim : string -> string) (cl : Closure.t) (st : Session.t)
  (e : Event) : Session.t :=
  match e with
  | Message env sc => onmessage trim cl env sc st
  | Ended source => onended source st
  end.

Definition run (trim : string -> string) (cl : Closure.t)
  (events : list Event) (st : Session.t)
  : Session.t :=
  fold_left (step trim cl) events st.

(** An event that carries neither audio nor an interruption. *)
Definition quiet (e : Event) : bool :=
  match e with
  | Message _ (Some sc) =>
      match ServerContent.modelTurnAudio sc with
      | Some _ => false
      | None => negb (ServerContent.interrupted sc)
      end
  | Message _ None => true
  | Ended _ => true
  end.

(** The durations of the buffers an event carries are not negative. *)
Definition well_formed (e : Event) : Prop :=
  match e with
  | Message _ (Some sc) =>
      match ServerContent.modelTurnAudio sc with
      | Some d => 0 <= d
      | None => True
      end
  | _ => True
  end.

(** The active sources play one after the other, and the scheduling clock
    is not before the end of any of them. *)
Definition gapless_clock (st : Session.t) : Prop :=
  StronglySorted (fun a b => Source.endTime a <= Source.startTime b)
    (Session.sources st)
  /\ Forall (fun a => Source.endTime a <= Session.nextStartTime st)
       (Session.sources st).

(** *** Vocabulary for the stability of [Array_sort] *)

(** The comparator shape [(a, b) => key(b) - key(a)]. *)
Definition descending {A : Type} (key : A -> Z) : A -> A -> Z :=
  fun a b => key b - key a.

(** The same comparator on elements that carry the position they had in
    the input. *)
Definition descending_tagged {A : Type} (key : A -> Z)
  : nat * A -> nat * A -> Z :=
  fun x y => key (snd y) - key (snd x).

(** [before key x y]: [x] has the larger key, or the same key and the
    smaller input position. *)
Definition before {A : Type} (key : A -> Z) (x y : nat * A) : Prop :=
  key (snd x) > key (snd y)
  \/ (key (snd x) = key (snd y) /\ (fst x < fst y)%nat).

(** [tag n l] pairs every element with its position, counted from [n]. *)
Definition tag {A : Type} (n : nat) (l : list A) : list (nat * A) :=
  combine (seq n (List.length l)) l.

(** *** The turn-complete commit as the design document words it *)

(** A message that carries the turn-complete signal and nothing else. *)
Definition turnCompleteSignal : ServerContent.t :=
  ServerContent.mk None None true None false.

(** A message that carries the interruption signal and nothing else. *)
Definition interruptedSignal : ServerContent.t :=
  ServerContent.mk None None false None true.

(** "Each non-empty accumulator is committed as one entry with a timestamp
    and the accumulator is cleared, human before agent", for a handler whose
    view of the accumulators is the current one. *)
Definition commits_each_nonempty (trim : string -> string) (env : Env.t)
  (st : Session.t) : Prop :=
  let st' :=
    onmessage trim (Closure.of_render st) env (Some turnCompleteSignal) st in
  let committed role text :=
    if truthy text
    then [TranscriptEntry.mk role text (Env.localeTime env)] else [] in
  Session.transcripts st'
  = Session.transcripts st
      ++ committed user (Session.currentInput st)
      ++ committed model (Session.currentOutput st)
  /\ Session.currentInput st' = ""
  /\ Session.currentOutput st' = "".

(** ** LiveAgentDemo: the end of a call *)

(** Heuristic outcome logic of [stopSession]. *)
Definition heuristicOutcome (transcripts : list TranscriptEntry.t)
  : CallStatus * Sentiment :=
  let newStatus := COMPLETED in
  let newSentiment := Neutral in
  if (6 <? List.length transcripts)%nat then (newStatus, Positive)
  else if (List.length transcripts <? 2)%nat then (FAILED, Negative)
  else (newStatus, newSentiment).

(** The [reader.onloadend] callback installed by [stopSession]: the lead it
    hands to [onUpdateLead], if it calls it.  [onUpdateLead] tells whether
    the prop was supplied. *)
Definition onloadend (transcripts : list TranscriptEntry.t)
  (onUpdateLead : bool) (activeLead : option Lead.t) (base64data : string)
  : option Lead.t :=
  let (newStatus, newSentiment) := heuristicOutcome transcripts in
  match onUpdateLead, activeLead with
  | true, Some l =>
      Some (Lead.mk (Lead.id l) (Lead.restaurantName l) (Lead.contactName l)
              (Lead.phone l) newStatus (Lead.cuisine l) (Lead.location l)
              (Lead.priceRange l) (Some "Just now") (Lead.notes l)
              (Some newSentiment) (Some transcripts) (Lead.score l)
              (Some base64data))
  | _, _ => None
  end.

(** ** LiveAgentDemo: the post-call pipeline *)

(** The parsed reply of the classification request. *)
Module Analysis.
Record t : Type := mk
  { summary : string;
    sentiment : option Sentiment;
    outcome : string }.
End Analysis.

(** The parsed reply of the extraction request. *)
Module TrainingData.
Record t : Type := mk
  { found : bool;
    category : Category;
    content : string }.
End TrainingData.

(** How a JavaScript computation completes. *)
Inductive Completion (A : Type) : Type :=
| Normal (a : A)
| Throw (e : string).

Arguments Normal {A} a.
Arguments Throw {A} e.

(** What the pipeline does to its collaborators, in order. *)
Inductive Effect : Type :=
| AskSummary (transcriptText : string)
| AskTraining (transcriptText : string)
| UpdateLead (lead : Lead.t)
| Learn (snippet : KnowledgeSnippet.t).

(** The state the pipeline writes: three [useState] cells and the trace of
    its calls. *)
Module World.
Record t : Type := mk
  { summary : option string;
    isSummarizing : bool;
    learningStatus : option string;
    trace : list Effect }.
End World.

(** State and exceptions. *)
Definition M (A : Type) : Type := World.t -> Completion A * World.t.

Definition ret {A : Type} (a : A) : M A := fun w => (Normal a, w).

Definition bind {A B : Type} (m : M A) (k : A -> M B) : M B :=
  fun w =>
    match m w with
    | (Normal a, w') => k a w'
    | (Throw e, w') => (Throw e, w')
    end.

Definition try_catch {A : Type} (m : M A) (handler : string -> M A) : M A :=
  fun w =>
    match m w with
    | (Normal a, w') => (Normal a, w')
    | (Throw e, w') => handler e w'
    end.

Notation "x <- m ;; k" := (bind m (fun x => k))
  (at level 61, m at next level, right associativity).
Notation "m ;; k" := (bind m (fun _ => k))
  (at level 61, right associativity).

Definition setSummary (v : option string) : M unit :=
  fun w => (Normal tt,
            World.mk v (World.isSummarizing w) (World.learningStatus w)
              (World.trace w)).

Definition setIsSummarizing (v : bool) : M unit :=
  fun w => (Normal tt,
            World.mk (World.summary w) v (World.learningStatus w)
              (World.trace w)).

Definition setLearningStatus (v : option string) : M unit :=
  fun w => (Normal tt,
            World.mk (World.summary w) (World.isSummarizing w) v
              (World.trace w)).

Definition emit (e : Effect) : M unit :=
  fun w => (Normal tt,
            World.mk (World.summary w) (World.isSummarizing w)
              (World.learningStatus w) (World.trace w ++ [e])).

(** An awaited request followed by [JSON.parse] of its text: the request is
    recorded, and the completion of the two is what the remote side and the
    parser make of it. *)
Definition request {A : Type} (e : Effect) (reply : Completion A) : M A :=
  fun w =>
    (reply,
     World.mk (World.summary w) (World.isSummarizing w)
       (World.learningStatus w) (World.trace w ++ [e])).

(** What [processPostCall] reads from the render it is called from, from
    the props and from the platform. *)
Module PostCallInput.
Record t : Type := mk
  { transcripts : list TranscriptEntry.t;
    currentInput : string;
    currentOutput : string;
    effectiveLead : Lead.t;
    latestLead : option Lead.t;
    onUpdateLead : bool;
    onLearn : bool;
    summaryReply : Completion Analysis.t;
    trainingReply : Completion TrainingData.t;
    dateNow : string;
    localeDate : string }.
End PostCallInput.

(** Committed transcripts and any partials. *)
Definition fullTranscript (trim : string -> string) (i : PostCallInput.t)
  : list TranscriptEntry.t :=
  let fullTranscript := PostCallInput.transcripts i in
  let fullTranscript :=
    if truthy (trim (PostCallInput.currentInput i))
    then fullTranscript
           ++ [TranscriptEntry.mk user (PostCallInput.currentInput i) "now"]
    else fullTranscript in
  if truthy (trim (PostCallInput.currentOutput i))
  then fullTranscript
         ++ [TranscriptEntry.mk model (PostCallInput.currentOutput i) "now"]
  else fullTranscript.

Definition transcriptText (l : list TranscriptEntry.t) : string :=
  String.concat (String (ascii_of_nat 10) "")
    (map (fun t =>
            ((match TranscriptEntry.role t with
              | user => "USER"
              | model => "MODEL"
              end) ++ ": " ++ TranscriptEntry.text t)%string) l).

(** The lead of the BOOKED update. *)
Definition bookedLead (currentLeadState : Lead.t)
  (sentiment : option Sentiment) : Lead.t :=
  Lead.mk (Lead.id currentLeadState) (Lead.restaurantName currentLeadState)
    (Lead.contactName currentLeadState) (Lead.phone currentLeadState)
    BOOKED (Lead.cuisine currentLeadState) (Lead.location currentLeadState)
    (Lead.priceRange currentLeadState) (Lead.lastContacted currentLeadState)
    (Lead.notes currentLeadState) sentiment
    (Lead.transcript currentLeadState) 100
    (Lead.recording currentLeadState).

(** 1. Generate summary: the body of the first [try]. *)
Definition classificationStage (i : PostCallInput.t) (text : string)
  : M unit :=
  analysis <- request (AskSummary text) (PostCallInput.summaryReply i) ;;
  setSummary (Some (Analysis.summary analysis)) ;;
  match PostCallInput.latestLead i with
  | Some currentLeadState =>
      if (Analysis.outcome analysis =? "BOOKED")%string
         && PostCallInput.onUpdateLead i
      then emit (UpdateLead
                   (bookedLead currentLeadState (Analysis.sentiment analysis)))
      else ret tt
  | None => ret tt
  end.

(** 2. RAG training step: the body of the second [try]. *)
Definition extractionStage (i : PostCallInput.t) (text : string) : M unit :=
  trainingData <- request (AskTraining text) (PostCallInput.trainingReply i) ;;
  if TrainingData.found trainingData
     && truthy (TrainingData.content trainingData)
  then
    emit (Learn
            (KnowledgeSnippet.mk (PostCallInput.dateNow i)
               (TrainingData.category trainingData)
               (TrainingData.content trainingData)
               (Lead.restaurantName (PostCallInput.effectiveLead i))
               (PostCallInput.localeDate i))) ;;
    setLearningStatus
      (Some "Success! New strategy added to Knowledge Base.")
  else setLearningStatus (Some "No new strategies detected.").

Definition processPostCall (trim : string -> string) (i : PostCallInput.t)
  : M unit :=
  let fullTranscript := fullTranscript trim i in
  if (List.length fullTranscript =? 0)%nat then ret tt
  else
    setIsSummarizing true ;;
    setSummary None ;;
    setLearningStatus None ;;
    let text := transcriptText fullTranscript in
    try_catch (classificationStage i text)
      (fun _ => setSummary (Some "Analysis temporarily unavailable.")) ;;
    (if (4 <? List.length fullTranscript)%nat && PostCallInput.onLearn i
     then
       setLearningStatus (Some "Analyzing call for new training data...") ;;
       try_catch (extractionStage i text)
         (fun _ =>
            setLearningStatus (Some "Training skipped due to API timeout."))
     else ret tt) ;;
    setIsSummarizing false.

(** The pipeline run from the state of the render that ended the call. *)
Definition startWorld (summary : option string)
  (learningStatus : option string) : World.t :=
  World.mk summary false learningStatus [].

Definition isUpdateLead (e : Effect) : bool :=
  match e with UpdateLead _ => true | _ => false end.

Definition isAskTraining (e : Effect) : bool :=
  match e with AskTraining _ => true | _ => false end.

(** *** The full transcript as the design document words it *)

Module PostCallSpec.
Section Words.
Variable trim : string -> string.

(** A partial is a trailing entry of the call when trimming leaves
    something of it; it is included verbatim. *)
Definition trailing (r : Role) (partial : string) : list TranscriptEntry.t :=
  if (trim partial =? "")%string then []
  else [TranscriptEntry.mk r partial "now"].

(** Committed entries plus trailing partials, the human one first. *)
Definition fullTranscript (committed : list TranscriptEntry.t)
  (currentInput currentOutput : string) : list TranscriptEntry.t :=
  committed ++ trailing user currentInput ++ trailing model currentOutput.

End Words.
End PostCallSpec.

(** ** Sample data *)

Module Sample.

(** The lead of the component's test mode ([startTestMode]). *)
Definition dummyLead : Lead.t :=
  Lead.mk "test-preview" "Test Kitchen Preview" "Restaurant Manager"
    "+1 (555) 000-0000" PENDING "Modern Fusion" "SoHo, NY" "$$$" None
    (Some "Client mentioned they are usually too busy to answer phones during dinner service.")
    None None 85 None.

(** The same lead with an empty cuisine. *)
Definition noCuisineLead : Lead.t :=
  Lead.mk "test-preview" "Test Kitchen Preview" "Restaurant Manager"
    "+1 (555) 000-0000" PENDING "" "SoHo, NY" "$$$" None
    (Some "Client mentioned they are usually too busy to answer phones during dinner service.")
    None None 85 None.

Definition busySnippet : KnowledgeSnippet.t :=
  KnowledgeSnippet.mk "1" objection_handling
    "When they are too BUSY to talk, offer a two minute callback."
    "Le Bernardin" "1/1/2025".

Definition ownSnippet : KnowledgeSnippet.t :=
  KnowledgeSnippet.mk "2" closing_technique
    "Ask for a 15 minute demo on Tuesday." "Test Kitchen Preview" "1/2/2025".

Definition fusionSnippet : KnowledgeSnippet.t :=
  KnowledgeSnippet.mk "3" value_proposition
    "Other modern fusion kitchens never miss a VIP call." "Atomix" "1/3/2025".

Definition plainSnippet : KnowledgeSnippet.t :=
  KnowledgeSnippet.mk "4" closing_technique "Thank them for their time."
    "Daniel" "1/4/2025".

Definition otherPlainSnippet : KnowledgeSnippet.t :=
  KnowledgeSnippet.mk "5" value_proposition "We answer every call."
    "Masa" "1/5/2025".

Definition kb : list KnowledgeSnippet.t :=
  [plainSnippet; busySnippet; otherPlainSnippet; ownSnippet; fusionSnippet].

Definition env0 : Env.t := Env.mk 0 "10:00:00 AM".
Definition env1 : Env.t := Env.mk 4800 "10:00:01 AM".

(** A render whose accumulators hold one space and nothing. *)
Definition blankInput : Session.t :=
  Session.mk [] " " "" listening 0 [] 0.

(** A render whose accumulators hold text for both roles. *)
Definition bothPartials : Session.t :=
  Session.mk [] "Hi, who is this?" "This is Alex from Host AI." listening
    0 [] 0.

(** A session started from the first render of the component. *)
Definition firstSession : Closure.t * Session.t :=
  startSession (Session.mount None).

Definition agentDelta : ServerContent.t :=
  ServerContent.mk None (Some "Hello there") false None false.

Definition audio (d : Z) : ServerContent.t :=
  ServerContent.mk None None false (Some d) false.

Definition entry (r : Role) (text : string) : TranscriptEntry.t :=
  TranscriptEntry.mk r text "10:00:00 AM".

Definition sixEntries : list TranscriptEntry.t :=
  [entry model "a"; entry user "b"; entry model "c"; entry user "d";
   entry model "e"; entry user "f"].

Definition postCallInput : PostCallInput.t :=
  PostCallInput.mk sixEntries "" "" dummyLead (Some dummyLead) true true
    (Throw "503") (Throw "timeout") "1700000000000" "1/6/2025".

End Sample.

(** ** App.tsx: the seed data and the other handlers *)

(** [Number.prototype.toString] on a natural number. *)
Definition toString (n : nat) : string :=
  NilEmpty.string_of_uint (Nat.to_uint n).

(** [String.prototype.padStart(targetLength, '0')]. *)
Definition padStart0 (targetLength : nat) (s : string) : string :=
  (String.concat "" (repeat "0" (targetLength - String.length s)) ++ s)%string.

(** The name, the contact and the cuisine of the fifteen named venues. *)
Definition restaurants : list (string * string * string) :=
  [ ("Le Bernardin", "Eric Ripert", "French Seafood");
    ("Per Se", "Thomas Keller", "French American");
    ("Eleven Madison Park", "Daniel Humm", "Plant-based");
    ("Carbone", "Mario Carbone", "Italian American");
    ("Masa", "Masa Takayama", "Japanese Omakase");
    ("Jean-Georges", "Jean-Georges Vongerichten", "French");
    ("The Grill", "Mario Carbone", "American Chophouse");
    ("Daniel", "Daniel Boulud", "French");
    ("Le Coucou", "Stephen Starr", "French");
    ("Atomix", "Junghyun Park", "Korean");
    ("Cote", "Simon Kim", "Korean Steakhouse");
    ("Balthazar", "Keith McNally", "French Brasserie");
    ("Gramercy Tavern", "Danny Meyer", "American");
    ("L'Artusi", "August Cardona", "Italian");
    ("Manhatta", "Danny Meyer", "New American") ].

(** [{ ...baseLead, score: calculateLeadScore(baseLead) }] *)
Definition pushScored (baseLead : Lead.t) : Lead.t :=
  Lead.with_score baseLead (calculateLeadScore (PartialLead.of_lead baseLead)).

(** The body of [restaurants.forEach((r, i) => ...)]; the [score] of the
    base lead is not set and not read. *)
Definition topTierLead (i : nat) (r : string * string * string) : Lead.t :=
  let '(name, contact, cuisine) := r in
  pushScored
    (Lead.mk ("nyc-" ++ toString (i + 1))%string name contact
       ("+1 (212) 555-01" ++ padStart0 2 (toString i))%string
       (if (i <? 3)%nat then BOOKED else PENDING)
       cuisine "Manhattan, NY" "$$$$"
       (if (i <? 3)%nat then Some "Yesterday" else None)
       (Some "Top priority target. High average ticket size.")
       (if (i <? 3)%nat then Some Positive else None)
       None 0 None).

(** The body of [for (let i = 16; i <= 50; i++)]. *)
Definition bistroLead (i : nat) : Lead.t :=
  pushScored
    (Lead.mk ("nyc-" ++ toString i)%string
       ("Manhattan Bistro " ++ toString i)%string
       ("Manager " ++ toString i)%string
       ("+1 (212) 555-02" ++ toString i)%string
       PENDING "Fine Dining" "Manhattan, NY" "$$$" None
       (Some "Generated lead from scraping logic.") None None 0 None).

Definition generateManhattanLeads : list Lead.t :=
  map (fun ir => topTierLead (fst ir) (snd ir))
    (combine (seq 0 (List.length restaurants)) restaurants)
  ++ map bistroLead (seq 16 35).

(** [handleLearnFromCall], as the updater handed to [setKnowledgeBase]. *)
Definition handleLearnFromCall (snippet : KnowledgeSnippet.t)
  (prev : list KnowledgeSnippet.t) : list KnowledgeSnippet.t :=
  snippet :: prev.

(** [const activeLead = leads.find(l => l.id === activeLeadId)] *)
Definition activeLead (leads : list Lead.t) (activeLeadId : option string)
  : option Lead.t :=
  match activeLeadId with
  | Some i => find (fun l => (Lead.id l =? i)%string) leads
  | None => None
  end.

(** The [score] field of a lead is the one [calculateLeadScore] computes
    from its other fields. *)
Definition scored (l : Lead.t) : Prop :=
  Lead.score l = calculateLeadScore (PartialLead.of_lead l).

(** No string occurs twice in the list. *)
Fixpoint distinct (l : list string) : bool :=
  match l with
  | [] => true
  | x :: l' => negb (existsb (String.eqb x) l') && distinct l'
  end.

(** ** LeadManager *)

Definition getStatusColor (status : CallStatus) : string :=
  match status with
  | BOOKED => "bg-green-500/10 text-green-400 border-green-500/20"
  | COMPLETED => "bg-blue-500/10 text-blue-400 border-blue-500/20"
  | IN_PROGRESS => "bg-yellow-500/10 text-yellow-400 border-yellow-500/20"
  | FAILED => "bg-red-500/10 text-red-400 border-red-500/20"
  | _ => "bg-slate-500/10 text-slate-400 border-slate-500/20"
  end.

Definition getScoreColor (score : Z) : string :=
  if score >=? 80 then "bg-green-500"
  else if score >=? 50 then "bg-yellow-500"
  else "bg-red-500".

(** [sortBy: 'score' | 'name'] *)
Inductive SortBy : Type :=
| by_score
| by_name.

Section LeadTable.

(** [toLowerCase] and [localeCompare] are built-ins of the platform. *)
Variable toLowerCase : string -> string.
Variable localeCompare : string -> string -> Z.

(** The predicate of [leads.filter(...)]. *)
Definition matchesSearch (searchTerm : string) (lead : Lead.t) : bool :=
  includes (toLowerCase (Lead.restaurantName lead)) (toLowerCase searchTerm)
  || includes (toLowerCase (Lead.contactName lead)) (toLowerCase searchTerm).

(** The comparator of [.sort(...)]. *)
Definition compareLeads (sortBy : SortBy) (a b : Lead.t) : Z :=
  match sortBy with
  | by_score => Lead.score b - Lead.score a
  | by_name => localeCompare (Lead.restaurantName a) (Lead.restaurantName b)
  end.

Definition filteredLeads (leads : list Lead.t) (searchTerm : string)
  (sortBy : SortBy) : list Lead.t :=
  Array_sort (compareLeads sortBy) (filter (matchesSearch searchTerm) leads).

End LeadTable.

(** ** LiveAgentDemo: audio helpers *)

(** A [Float32Array] holds finite samples, taken as the rationals they
    are; [x * 32768] and [v / 32768.0] are exact on them.  An [Int16Array]
    is a list of integers, a [Uint8Array] a list of bytes. *)

(** Rounding toward zero. *)
Definition truncate (x : Q) : Z :=
  if Qle_bool 0 x then Qfloor x else Qceiling x.

(** The conversion applied when a number is stored into an [Int16Array]:
    truncate, reduce modulo 2^16, read as a signed 16-bit integer. *)
Definition ToInt16 (x : Q) : Z :=
  let int16bit := truncate x mod 65536 in
  if int16bit >=? 32768 then int16bit - 65536 else int16bit.

(** The byte with the value [z mod 256]. *)
Definition byte_of_Z (z : Z) : Byte.byte :=
  byte_of_ascii (ascii_of_N (Z.to_N (z mod 256))).

Definition Z_of_byte (b : Byte.byte) : Z := Z.of_N (Byte.to_N b).

(** [new Uint8Array(int16.buffer)]: two bytes per element, low byte
    first. *)
Definition bytes_of_int16 (v : Z) : list Byte.byte :=
  [byte_of_Z v; byte_of_Z (v / 256)].

Definition Uint8Array_of_Int16Array (int16 : list Z) : list Byte.byte :=
  flat_map bytes_of_int16 int16.

Definition int16_of_bytes (lo hi : Byte.byte) : Z :=
  let u := Z_of_byte lo + 256 * Z_of_byte hi in
  if u >=? 32768 then u - 65536 else u.

(** [new Int16Array(data.buffer)]: a [RangeError] when the byte length is
    odd. *)
Fixpoint Int16Array_of_Uint8Array (data : list Byte.byte)
  : Completion (list Z) :=
  match data with
  | [] => Normal []
  | [_] => Throw "RangeError"
  | lo :: hi :: rest =>
      match Int16Array_of_Uint8Array rest with
      | Normal l => Normal (int16_of_bytes lo hi :: l)
      | Throw e => Throw e
      end
  end.

(** The loop [binary += String.fromCharCode(bytes[i])]. *)
Definition binaryString (bytes : list Byte.byte) : string :=
  fold_left (fun binary b => (binary ++ String (ascii_of_byte b) "")%string)
    bytes "".

(** What [createBuffer] and the fill loop of [decodeAudioData] produce;
    [length] is the number of frames, so the duration is [length] frames. *)
Module AudioBuffer.
Record t : Type := mk
  { numberOfChannels : nat;
    length : nat;
    sampleRate : Z;
    channelData : list (list Q) }.

Definition duration (b : t) : Z := Z.of_nat (length b).
End AudioBuffer.

Section AudioHelpers.

(** [btoa] and [atob] are built-ins of the platform. *)
Variable btoa : string -> string.
Variable atob : string -> string.

Definition encodePCM (data : list Q) : string :=
  let int16 := map (fun x => ToInt16 (x * 32768)) data in
  let bytes := Uint8Array_of_Int16Array int16 in
  btoa (binaryString bytes).

(** The loop [bytes[i] = binaryString.charCodeAt(i)]. *)
Definition decode (base64 : string) : list Byte.byte :=
  map byte_of_ascii (list_ascii_of_string (atob base64)).

End AudioHelpers.

(** [decodeAudioData], for a channel count that is positive and divides
    the number of 16-bit samples and a sample rate the context supports (1
    and 24000 at the only call).  [createBuffer] refuses a buffer of zero
    frames. *)
Definition decodeAudioData (data : list Byte.byte) (sampleRate : Z)
  (numChannels : nat) : Completion AudioBuffer.t :=
  match Int16Array_of_Uint8Array data with
  | Throw e => Throw e
  | Normal dataInt16 =>
      let frameCount := (List.length dataInt16 / numChannels)%nat in
      if (frameCount =? 0)%nat then Throw "NotSupportedError"
      else
        Normal
          (AudioBuffer.mk numChannels frameCount sampleRate
             (map (fun channel =>
                     map (fun i =>
                            (nth (i * numChannels + channel) dataInt16 0%Z
                               # 32768)%Q)
                       (seq 0 frameCount))
                (seq 0 numChannels)))
  end.

(** The range of a signed 16-bit integer. *)
Definition int16 (v : Z) : Prop := -32768 <= v < 32768.

(** ** Vocabulary for the session invariants *)

(** The event carries the interruption signal. *)
Definition interrupts (e : Event) : bool :=
  match e with
  | Message _ (Some sc) => ServerContent.interrupted sc
  | _ => false
  end.

(** The status is 'speaking' exactly while the active set is not empty. *)
Definition speaking_while_active (st : Session.t) : Prop :=
  Session.status st = speaking <-> Session.sources st <> [].

Definition isLearn (e : Effect) : bool :=
  match e with Learn _ => true | _ => false end.

Definition isAskSummary (e : Effect) : bool :=
  match e with AskSummary _ => true | _ => false end.

(** ** LeadManager: playing a recording *)

(** The playback state of the lead table: the two [useState] cells, and
    the [Audio] elements that are playing, each known by the number it was
    created with and its source. *)
Module Player.
Record t : Type := mk
  { playingId : option string;
    audioEl : option nat;
    sounding : list (nat * string);
    made : nat }.

Definition initial : t := mk None None [] 0.

(** [el.pause()] *)
Definition pause (el : nat) (l : list (nat * string)) : list (nat * string) :=
  filter (fun e => negb (fst e =? el)%nat) l.
End Player.

Definition toggleAudio (id src : string) (st : Player.t) : Player.t :=
  match Player.audioEl st with
  | Some el =>
      if match Player.playingId st with
         | Some p => (p =? id)%string
         | None => false
         end
      then
        Player.mk None (Some el) (Player.pause el (Player.sounding st))
          (Player.made st)
      else
        let newAudio := Player.made st in
        Player.mk (Some id) (Some newAudio)
          (Player.pause el (Player.sounding st) ++ [(newAudio, src)])
          (S (Player.made st))
  | None =>
      let newAudio := Player.made st in
      Player.mk (Some id) (Some newAudio)
        (Player.sounding st ++ [(newAudio, src)])
        (S (Player.made st))
  end.

(** [newAudio.onended]: the element has played to its end. *)
Definition audioEnded (el : nat) (st : Player.t) : Player.t :=
  if existsb (fun e => (fst e =? el)%nat) (Player.sounding st) then
    Player.mk None (Player.audioEl st) (Player.pause el (Player.sounding st))
      (Player.made st)
  else st.

Inductive PlayerAction : Type :=
| Toggle (id src : string)
| AudioEnded (el : nat).

Definition playerStep (st : Player.t) (a : PlayerAction) : Player.t :=
  match a with
  | Toggle id src => toggleAudio id src st
  | AudioEnded el => audioEnded el st
  end.

(** At most the current element is playing, and a lead is marked as playing
    only while its element is. *)
Definition exclusive (st : Player.t) : Prop :=
  (Player.sounding st = []
   \/ exists el src,
        Player.audioEl st = Some el /\ Player.sounding st = [(el, src)])
  /\ (Player.playingId st <> None -> Player.sounding st <> []).

(** ** More sample data *)

Module MoreSamples.

(** The first three leads of the seed data. *)
Definition store : list Lead.t := firstn 3 generateManhattanLeads.

(** An update for the second of them. *)
Definition update : Lead.t :=
  Lead.mk "nyc-2" "Per Se" "Thomas Keller" "+1 (212) 555-0101" COMPLETED
    "French American" "Manhattan, NY" "$$$$" (Some "Just now") None
    (Some Neutral) None 7 None.

(** A call whose classification says BOOKED and whose extraction finds a
    technique. *)
Definition bookedInput : PostCallInput.t :=
  PostCallInput.mk Sample.sixEntries "" "" Sample.dummyLead
    (Some Sample.dummyLead) true true
    (Normal (Analysis.mk "Agreed to a demo." (Some Positive) "BOOKED"))
    (Normal (TrainingData.mk true closing_technique "Ask for Tuesday."))
    "1700000000000" "1/6/2025".

Definition bookedWorld : World.t :=
  snd (processPostCall asciiTrim bookedInput (startWorld None None)).

Definition learnedSnippet : KnowledgeSnippet.t :=
  KnowledgeSnippet.mk "1700000000000" closing_technique "Ask for Tuesday."
    "Test Kitchen Preview" "1/6/2025".

(** A call in which only a trailing partial was heard. *)
Definition partialOnlyInput : PostCallInput.t :=
  PostCallInput.mk [] "Hello?" "" Sample.dummyLead (Some Sample.dummyLead)
    true true (Throw "503") (Throw "timeout") "1700000000000" "1/6/2025".

Definition firstSessionEvents : list Event :=
  [Message Sample.env0 (Some Sample.agentDelta);
   Message Sample.env1 (Some turnCompleteSignal)].

(** Two bytes: the 16-bit sample -32768. *)
Definition twoBytes : list Byte.byte := [Byte.x00; Byte.x80].

End MoreSamples.

(* ================================================================== *)
(** * Part II: properties                                               *)
(* ================================================================== *)

Section LeadScorer.

Lemma clamp_max_min (x : Z) :
  Z.max 0 (Z.min 100 x) = LeadScorerSpec.clamp x.
Proof.
  unfold LeadScorerSpec.clamp.
  destruct (Z.ltb_spec x 0); destruct (Z.ltb_spec 100 x); lia.
Qed.

Lemma calculateLeadScore_range (lead : PartialLead.t) :
  0 <= calculateLeadScore lead <= 100.
Proof. unfold calculateLeadScore. lia. Qed.

Lemma calculateLeadScore_BOOKED (p : option string) (se : option Sentiment) :
  calculateLeadScore (PartialLead.mk p (Some BOOKED) se) = 100.
Proof.
  unfold calculateLeadScore; simpl.
  destruct p as [p|]; reflexivity.
Qed.

Lemma calculateLeadScore_refines (lead : Lead.t) :
  calculateLeadScore (PartialLead.of_lead lead)
  = LeadScorerSpec.score (Lead.priceRange lead) (Lead.status lead)
      (Lead.sentiment lead).
Proof.
  unfold calculateLeadScore, LeadScorerSpec.score, LeadScorerSpec.base,
    LeadScorerSpec.after_status, LeadScorerSpec.after_sentiment,
    LeadScorerSpec.sentiment_modifier.
  rewrite clamp_max_min. simpl.
  f_equal.
  destruct (Lead.priceRange lead =? "$$$$")%string;
    [| destruct (Lead.priceRange lead =? "$$$")%string;
       [| destruct (Lead.priceRange lead =? "$$")%string ] ];
    destruct (Lead.status lead); simpl;
    destruct (Lead.sentiment lead) as [[]|]; reflexivity.
Qed.

(** C1. For every lead, [calculateLeadScore] equals the additive
    reference definition (base from price tier, status modifier with the
    BOOKED override, sentiment modifier skipped for BOOKED, clamp to
    [0,100]); every output lies in [0,100]; and status BOOKED yields 100
    whatever the price tier and the sentiment are. *)
Theorem calculateLeadScore_spec :
  (forall lead : Lead.t,
      calculateLeadScore (PartialLead.of_lead lead)
      = LeadScorerSpec.score (Lead.priceRange lead) (Lead.status lead)
          (Lead.sentiment lead))
  /\ (forall lead : PartialLead.t, 0 <= calculateLeadScore lead <= 100)
  /\ (forall (lead : Lead.t),
         calculateLeadScore
           (PartialLead.of_lead (Lead.with_status lead BOOKED)) = 100).
Proof.
  split; [exact calculateLeadScore_refines|].
  split; [exact calculateLeadScore_range|].
  intros lead. unfold PartialLead.of_lead; simpl.
  apply calculateLeadScore_BOOKED.
Qed.

(** The scenarios A to D of the design document. *)
Example scenario_A :
  calculateLeadScore (PartialLead.mk (Some "$$$$") (Some PENDING) None) = 40.
Proof. reflexivity. Qed.

Example scenario_B :
  calculateLeadScore
    (PartialLead.mk (Some "$$$$") (Some COMPLETED) (Some Positive)) = 80.
Proof. reflexivity. Qed.

Example scenario_C :
  calculateLeadScore
    (PartialLead.mk (Some "$$$$") (Some BOOKED) (Some Negative)) = 100.
Proof. reflexivity. Qed.

Example scenario_D :
  calculateLeadScore
    (PartialLead.mk (Some "$$") (Some FAILED) (Some Negative)) = 0.
Proof. reflexivity. Qed.

End LeadScorer.

(** ** Stable sorting by a key, in descending order *)

Section SortGeneric.

Context {A : Type}.

Lemma sort_insert_length (cmp : A -> A -> Z) (a : A) (l : list A) :
  List.length (sort_insert cmp a l) = S (List.length l).
Proof.
  induction l as [|b l IH]; simpl; [reflexivity|].
  destruct (cmp a b <=? 0); simpl; [reflexivity|].
  now rewrite IH.
Qed.

Lemma Array_sort_length (cmp : A -> A -> Z) (l : list A) :
  List.length (Array_sort cmp l) = List.length l.
Proof.
  induction l as [|a l IH]; simpl; [reflexivity|].
  now rewrite sort_insert_length, IH.
Qed.

Lemma sort_insert_In (cmp : A -> A -> Z) (a x : A) (l : list A) :
  In x (sort_insert cmp a l) <-> x = a \/ In x l.
Proof.
  induction l as [|b l IH]; simpl.
  - intuition congruence.
  - destruct (cmp a b <=? 0); simpl; [intuition congruence|].
    rewrite IH. intuition congruence.
Qed.

Lemma Array_sort_In (cmp : A -> A -> Z) (x : A) (l : list A) :
  In x (Array_sort cmp l) <-> In x l.
Proof.
  induction l as [|a l IH]; simpl; [tauto|].
  rewrite sort_insert_In, IH. intuition congruence.
Qed.

Lemma Array_sort_Forall (cmp : A -> A -> Z) (P : A -> Prop) (l : list A) :
  Forall P l -> Forall P (Array_sort cmp l).
Proof.
  rewrite !Forall_forall. intros H x Hx.
  apply H. now apply Array_sort_In in Hx.
Qed.

End SortGeneric.

Section SortByKey.

Context {A : Type}.
Variable key : A -> Z.

Lemma before_key_ge (x y : nat * A) : before key x y -> key (snd x) >= key (snd y).
Proof. unfold before. lia. Qed.

Lemma sort_insert_before (x : nat * A) (l : list (nat * A)) :
  StronglySorted (before key) l ->
  Forall (fun y => (fst x < fst y)%nat) l ->
  StronglySorted (before key) (sort_insert (descending_tagged key) x l).
Proof.
  induction l as [|y l IH]; intros Hs Ht; simpl.
  - constructor; constructor.
  - inversion Hs as [|? ? Hs' Hy]; subst.
    inversion Ht as [|? ? Hxy Ht']; subst.
    unfold descending_tagged at 1.
    destruct (Z.leb_spec (key (snd y) - key (snd x)) 0) as [Hle|Hgt].
    + constructor; [assumption|].
      constructor.
      * unfold before. lia.
      * rewrite Forall_forall in *. intros z Hz.
        specialize (Hy z Hz). specialize (Ht' z Hz).
        apply before_key_ge in Hy. unfold before. lia.
    + constructor; [now apply IH|].
      rewrite Forall_forall in *. intros z Hz.
      apply sort_insert_In in Hz. destruct Hz as [->|Hz].
      * unfold before. lia.
      * now apply Hy.
Qed.

Lemma Array_sort_before (l : list (nat * A)) :
  StronglySorted (fun x y => (fst x < fst y)%nat) l ->
  StronglySorted (before key) (Array_sort (descending_tagged key) l).
Proof.
  induction l as [|x l IH]; intros Hs; simpl.
  - constructor.
  - inversion Hs as [|? ? Hs' Hx]; subst.
    apply sort_insert_before; [now apply IH|].
    now apply Array_sort_Forall.
Qed.

Lemma sort_insert_untag (x : nat * A) (l : list (nat * A)) :
  map snd (sort_insert (descending_tagged key) x l)
  = sort_insert (descending key) (snd x) (map snd l).
Proof.
  induction l as [|y l IH]; simpl; [reflexivity|].
  unfold descending_tagged at 1, descending at 1.
  destruct (key (snd y) - key (snd x) <=? 0); simpl; [reflexivity|].
  now rewrite IH.
Qed.

Lemma Array_sort_untag (l : list (nat * A)) :
  map snd (Array_sort (descending_tagged key) l)
  = Array_sort (descending key) (map snd l).
Proof.
  induction l as [|x l IH]; simpl; [reflexivity|].
  now rewrite sort_insert_untag, IH.
Qed.

Lemma tag_untag (n : nat) (l : list A) : map snd (tag n l) = l.
Proof.
  unfold tag. revert n.
  induction l as [|a l IH]; intros n; simpl; [reflexivity|].
  now rewrite IH.
Qed.

Lemma tag_lower_bound (n : nat) (l : list A) :
  Forall (fun y => (n <= fst y)%nat) (tag n l).
Proof.
  unfold tag. revert n.
  induction l as [|a l IH]; intros n; simpl; constructor; simpl; [lia|].
  eapply Forall_impl; [|apply (IH (S n))]. simpl. intros; lia.
Qed.

Lemma tag_increasing (n : nat) (l : list A) :
  StronglySorted (fun x y => (fst x < fst y)%nat) (tag n l).
Proof.
  revert n.
  induction l as [|a l IH]; intros n; [constructor|].
  change (tag n (a :: l)) with ((n, a) :: tag (S n) l).
  constructor; [apply IH|].
  eapply Forall_impl; [|apply (tag_lower_bound (S n))]. simpl. intros; lia.
Qed.

Lemma tag_nth_error (n : nat) (l : list A) :
  Forall (fun y => (n <= fst y)%nat /\ nth_error l (fst y - n) = Some (snd y))
    (tag n l).
Proof.
  revert n.
  induction l as [|a l IH]; intros n; [constructor|].
  change (tag n (a :: l)) with ((n, a) :: tag (S n) l).
  constructor; simpl.
  - split; [lia|]. now rewrite Nat.sub_diag.
  - eapply Forall_impl; [|apply (IH (S n))]. simpl.
    intros [i y] [Hle Hnth]; simpl in *. split; [lia|].
    replace (i - n)%nat with (S (i - S n)) by lia. exact Hnth.
Qed.

Lemma StronglySorted_filter {B : Type} (R : B -> B -> Prop) (f : B -> bool)
  (l : list B) :
  StronglySorted R l -> StronglySorted R (filter f l).
Proof.
  induction 1 as [|x l Hs IH Hx]; simpl; [constructor|].
  destruct (f x); [|assumption].
  constructor; [assumption|].
  rewrite Forall_forall in *. intros y Hy.
  apply filter_In in Hy. now apply Hx.
Qed.

Lemma In_firstn_inv {B : Type} (n : nat) (l : list B) (y : B) :
  In y (firstn n l) -> In y l.
Proof.
  intros Hy. rewrite <- (firstn_skipn n l). apply in_or_app. now left.
Qed.

Lemma StronglySorted_firstn {B : Type} (R : B -> B -> Prop) (n : nat)
  (l : list B) :
  StronglySorted R l -> StronglySorted R (firstn n l).
Proof.
  intros Hs. revert n.
  induction Hs as [|x l Hs IH Hx]; intros [|n]; simpl; try constructor.
  - apply IH.
  - rewrite Forall_forall in *. intros y Hy.
    apply Hx. eapply In_firstn_inv; eauto.
Qed.

Lemma filter_untag (f : A -> bool) (l : list (nat * A)) :
  map snd (filter (fun x => f (snd x)) l) = filter f (map snd l).
Proof.
  induction l as [|x l IH]; simpl; [reflexivity|].
  destruct (f (snd x)); simpl; now rewrite IH.
Qed.

End SortByKey.

(** ** KnowledgeRetriever *)

Section Retriever.

Variable toLowerCase : string -> string.

Lemma keyword_loop (p : string -> bool) (l : list string) (init : Z) :
  fold_left (fun score word => if p word then score + 10 else score) l init
  = init + 10 * Z.of_nat (List.length (filter p l)).
Proof.
  revert init.
  induction l as [|w l IH]; intros init; cbn [fold_left filter List.length].
  - lia.
  - rewrite IH. destruct (p w); cbn [List.length];
      rewrite ?Nat2Z.inj_succ; lia.
Qed.

(** The combined context and the shared keywords of the reference are the
    ones the code computes. *)
Lemma shared_keywords_code (lead : Lead.t) (s : KnowledgeSnippet.t) :
  filter
    (fun word =>
       includes (fullContext toLowerCase lead) word
       && includes (toLowerCase (KnowledgeSnippet.content s)) word)
    keywords
  = RetrieverSpec.shared_keywords toLowerCase lead s.
Proof. reflexivity. Qed.

(** The score computed by the code is the additive sum of the rules, the
    cuisine rule counting only for a lead whose cuisine is not empty. *)
Lemma snippetScore_additive (lead : Lead.t) (s : KnowledgeSnippet.t) :
  snippetScore toLowerCase lead s = RetrieverSpec.score toLowerCase lead s.
Proof.
  unfold snippetScore. rewrite keyword_loop.
  rewrite (shared_keywords_code lead s).
  unfold RetrieverSpec.score, RetrieverSpec.exact_match,
    RetrieverSpec.cuisine_match_nonempty, RetrieverSpec.contains,
    RetrieverSpec.keyword_overlap,
    RetrieverSpec.affinity, RetrieverSpec.tie_break.
  destruct (KnowledgeSnippet.sourceRestaurant s =? Lead.restaurantName lead)%string;
    destruct (negb (Lead.cuisine lead =? "")%string
              && includes (toLowerCase (KnowledgeSnippet.content s))
                   (toLowerCase (Lead.cuisine lead)));
    destruct (Lead.status lead); destruct (KnowledgeSnippet.category s);
    destruct (Lead.priceRange lead =? "$$$$")%string; simpl; lia.
Qed.

Lemma snippetScore_exact_match (lead : Lead.t) (s : KnowledgeSnippet.t) :
  KnowledgeSnippet.sourceRestaurant s = Lead.restaurantName lead ->
  51 <= snippetScore toLowerCase lead s.
Proof.
  intros Heq. rewrite snippetScore_additive.
  unfold RetrieverSpec.score, RetrieverSpec.exact_match,
    RetrieverSpec.cuisine_match_nonempty, RetrieverSpec.keyword_overlap,
    RetrieverSpec.affinity, RetrieverSpec.tie_break.
  rewrite Heq, String.eqb_refl.
  destruct (negb _ && _); destruct (Lead.status lead);
    destruct (KnowledgeSnippet.category s);
    destruct (Lead.priceRange lead =? "$$$$")%string; lia.
Qed.

Lemma snippetScore_positive (lead : Lead.t) (s : KnowledgeSnippet.t) :
  1 <= snippetScore toLowerCase lead s.
Proof.
  rewrite snippetScore_additive.
  unfold RetrieverSpec.score, RetrieverSpec.exact_match,
    RetrieverSpec.cuisine_match_nonempty, RetrieverSpec.keyword_overlap,
    RetrieverSpec.affinity, RetrieverSpec.tie_break.
  destruct (_ =? _)%string; destruct (negb _ && _); destruct (Lead.status lead);
    destruct (KnowledgeSnippet.category s);
    destruct (Lead.priceRange lead =? "$$$$")%string; lia.
Qed.

Lemma selectRelevantSnippets_ranked (lead : Lead.t)
  (kb : list KnowledgeSnippet.t) :
  selectRelevantSnippets toLowerCase lead kb
  = map Scored.snippet (ranked toLowerCase lead kb).
Proof. destruct kb; reflexivity. Qed.

Lemma scoredSnippets_scores (lead : Lead.t) (kb : list KnowledgeSnippet.t) :
  Forall (fun item =>
            Scored.score item
            = snippetScore toLowerCase lead (Scored.snippet item))
    (scoredSnippets toLowerCase lead kb).
Proof.
  unfold scoredSnippets. apply Forall_forall. intros item Hin.
  apply in_map_iff in Hin. destruct Hin as [s [<- _]]. reflexivity.
Qed.

Lemma filter_keeps_all {B : Type} (f : B -> bool) (l : list B) :
  Forall (fun x => f x = true) l -> filter f l = l.
Proof.
  induction 1 as [|x l Hx _ IH]; simpl; [reflexivity|].
  now rewrite Hx, IH.
Qed.

Lemma ranked_unfiltered (lead : Lead.t) (kb : list KnowledgeSnippet.t) :
  ranked toLowerCase lead kb
  = firstn 3
      (Array_sort (fun a b => Scored.score b - Scored.score a)
         (scoredSnippets toLowerCase lead kb)).
Proof.
  unfold ranked. f_equal. apply filter_keeps_all.
  apply Array_sort_Forall.
  eapply Forall_impl; [|apply scoredSnippets_scores].
  intros item ->. pose proof (snippetScore_positive lead (Scored.snippet item)).
  apply Z.gtb_lt. lia.
Qed.

(** C10. Every snippet scores at least 1, so the [score > 0] filter
    excludes nothing: the number of snippets returned is exactly
    min(3, size of the knowledge base). *)
Theorem selectRelevantSnippets_length :
  forall (lead : Lead.t) (kb : list KnowledgeSnippet.t),
    Forall (fun item => Scored.score item >= 1)
      (scoredSnippets toLowerCase lead kb)
    /\ filter (fun item => Scored.score item >? 0)
         (Array_sort (fun a b => Scored.score b - Scored.score a)
            (scoredSnippets toLowerCase lead kb))
       = Array_sort (fun a b => Scored.score b - Scored.score a)
           (scoredSnippets toLowerCase lead kb)
    /\ List.length (selectRelevantSnippets toLowerCase lead kb)
       = Nat.min 3 (List.length kb).
Proof.
  intros lead kb. split; [|split].
  - eapply Forall_impl; [|apply scoredSnippets_scores].
    intros item ->. pose proof (snippetScore_positive lead (Scored.snippet item)).
    lia.
  - apply filter_keeps_all. apply Array_sort_Forall.
    eapply Forall_impl; [|apply scoredSnippets_scores].
    intros item ->. pose proof (snippetScore_positive lead (Scored.snippet item)).
    apply Z.gtb_lt. lia.
  - rewrite selectRelevantSnippets_ranked, ranked_unfiltered.
    rewrite length_map, length_firstn, Array_sort_length.
    unfold scoredSnippets. now rewrite length_map.
Qed.

(** *** Ranking *)

Lemma StronglySorted_map_In {B C : Type} (R : B -> B -> Prop)
  (R' : C -> C -> Prop) (f : B -> C) (l : list B) :
  (forall x y, In x l -> In y l -> R x y -> R' (f x) (f y)) ->
  StronglySorted R l -> StronglySorted R' (map f l).
Proof.
  intros Hf Hs. induction Hs as [|x l Hs IH Hx]; simpl; constructor.
  - apply IH. intros y z Hy Hz. apply Hf; now right.
  - apply Forall_forall. intros c Hc.
    apply in_map_iff in Hc. destruct Hc as [y [<- Hy]].
    rewrite Forall_forall in Hx.
    apply Hf; [now left | now right | now apply Hx].
Qed.

(** The scored items of the result, each with its position in the
    knowledge base. *)
Lemma ranked_tagged (lead : Lead.t) (kb : list KnowledgeSnippet.t) :
  exists T : list (nat * Scored.t),
    map snd T = ranked toLowerCase lead kb
    /\ StronglySorted (before Scored.score) T
    /\ Forall (fun x =>
                 nth_error kb (fst x) = Some (Scored.snippet (snd x))
                 /\ Scored.score (snd x)
                    = snippetScore toLowerCase lead (Scored.snippet (snd x)))
         T.
Proof.
  set (S0 := scoredSnippets toLowerCase lead kb).
  set (sorted := Array_sort (descending_tagged Scored.score) (tag 0 S0)).
  exists (firstn 3 (filter (fun x => Scored.score (snd x) >? 0) sorted)).
  split; [|split].
  - unfold ranked. rewrite <- firstn_map. f_equal.
    rewrite (filter_untag (fun item => Scored.score item >? 0)). f_equal.
    unfold sorted. rewrite Array_sort_untag, tag_untag. reflexivity.
  - apply StronglySorted_firstn, StronglySorted_filter.
    apply Array_sort_before, tag_increasing.
  - apply Forall_forall. intros x Hx.
    apply In_firstn_inv in Hx. apply filter_In in Hx. destruct Hx as [Hx _].
    apply Array_sort_In in Hx.
    pose proof (tag_nth_error 0 S0) as Hnth.
    rewrite Forall_forall in Hnth. destruct (Hnth x Hx) as [_ Hn].
    rewrite Nat.sub_0_r in Hn. unfold S0, scoredSnippets in Hn.
    rewrite nth_error_map in Hn.
    destruct (nth_error kb (fst x)) as [s|]; simpl in Hn; [|discriminate].
    injection Hn as <-. simpl. split; reflexivity.
Qed.

(** C2. The result has at most 3 snippets, it is ordered by non-increasing
    retrieval score, no returned snippet has a score <= 0, snippets of equal
    score keep the order they had in the knowledge base (the result, paired
    with knowledge-base positions, is strictly ordered by larger score and
    then smaller position), and equal inputs give equal results. *)
Theorem selectRelevantSnippets_ranking :
  forall (lead : Lead.t) (kb : list KnowledgeSnippet.t),
    let out := selectRelevantSnippets toLowerCase lead kb in
    let score := snippetScore toLowerCase lead in
    (List.length out <= 3)%nat
    /\ StronglySorted (fun a b => score a >= score b) out
    /\ Forall (fun s => score s > 0) out
    /\ (exists tagged : list (nat * KnowledgeSnippet.t),
           map snd tagged = out
           /\ Forall (fun x => nth_error kb (fst x) = Some (snd x)) tagged
           /\ StronglySorted (before score) tagged)
    /\ (forall lead' kb',
           lead' = lead -> kb' = kb ->
           selectRelevantSnippets toLowerCase lead' kb' = out).
Proof.
  intros lead kb out score.
  destruct (ranked_tagged lead kb) as [T [HT [Hsorted Hfacts]]].
  assert (Hout : out = map Scored.snippet (map snd T)).
  { unfold out. now rewrite selectRelevantSnippets_ranked, HT. }
  assert (Htagged :
            StronglySorted (before score)
              (map (fun x => (fst x, Scored.snippet (snd x))) T)).
  { eapply StronglySorted_map_In; [|exact Hsorted].
    intros x y Hx Hy. rewrite Forall_forall in Hfacts.
    destruct (Hfacts x Hx) as [_ Hsx]. destruct (Hfacts y Hy) as [_ Hsy].
    unfold before, score; simpl. now rewrite Hsx, Hsy. }
  split; [|split; [|split; [|split]]].
  - unfold out. rewrite selectRelevantSnippets_ranked, length_map.
    unfold ranked. rewrite length_firstn. lia.
  - rewrite Hout, map_map.
    replace (map (fun x => Scored.snippet (snd x)) T)
      with (map snd (map (fun x => (fst x, Scored.snippet (snd x))) T))
      by (now rewrite map_map).
    eapply StronglySorted_map_In; [|exact Htagged].
    intros x y _ _ Hb. unfold before in Hb. lia.
  - apply Forall_forall. intros s _.
    pose proof (snippetScore_positive lead s). unfold score. lia.
  - exists (map (fun x => (fst x, Scored.snippet (snd x))) T).
    split; [|split].
    + now rewrite Hout, !map_map.
    + apply Forall_forall. intros x Hx.
      apply in_map_iff in Hx. destruct Hx as [y [<- Hy]]. simpl.
      rewrite Forall_forall in Hfacts. now destruct (Hfacts y Hy).
    + exact Htagged.
  - intros lead' kb' -> ->. reflexivity.
Qed.

Lemma score_claimed_with_cuisine (lead : Lead.t) (s : KnowledgeSnippet.t) :
  Lead.cuisine lead <> "" ->
  RetrieverSpec.score_claimed toLowerCase lead s
  = RetrieverSpec.score toLowerCase lead s.
Proof.
  intros Hc. unfold RetrieverSpec.score_claimed, RetrieverSpec.score,
    RetrieverSpec.cuisine_match, RetrieverSpec.cuisine_match_nonempty.
  destruct (String.eqb_spec (Lead.cuisine lead) "") as [Heq|_];
    [congruence|reflexivity].
Qed.

(** C3. For a lead that has a cuisine, the score given to each snippet is
    the additive sum
    50 (source restaurant equals the lead's restaurant name)
    + 15 (the content contains the lead's cuisine, case-insensitively)
    + 10 per vocabulary keyword present in both the combined context
    (notes + cuisine + location + prior transcript text) and the content
    + 5 (FAILED lead, objection_handling)
    + 5 (top price tier, value_proposition) + 1;
    for every lead it is that sum with no cuisine bonus when the lead has
    no cuisine; and a knowledge base made of one snippet learned from the
    lead's own restaurant is returned with that snippet first, its score
    being at least 51. *)
Theorem snippetScore_spec :
  (forall (lead : Lead.t) (kb : list KnowledgeSnippet.t),
      Lead.cuisine lead <> "" ->
      scoredSnippets toLowerCase lead kb
      = map (fun s =>
               Scored.mk s (RetrieverSpec.score_claimed toLowerCase lead s))
          kb)
  /\ (forall (lead : Lead.t) (kb : list KnowledgeSnippet.t),
         scoredSnippets toLowerCase lead kb
         = map (fun s => Scored.mk s (RetrieverSpec.score toLowerCase lead s))
             kb)
  /\ (forall (lead : Lead.t) (id0 : string) (category0 : Category)
        (content0 timestamp0 : string),
         let s := KnowledgeSnippet.mk id0 category0 content0
                    (Lead.restaurantName lead) timestamp0 in
         selectRelevantSnippets toLowerCase lead [s] = [s]
         /\ 51 <= snippetScore toLowerCase lead s).
Proof.
  split; [|split].
  - intros lead kb Hc. unfold scoredSnippets. apply map_ext.
    intros s. now rewrite snippetScore_additive, score_claimed_with_cuisine.
  - intros lead kb. unfold scoredSnippets. apply map_ext.
    intros s. now rewrite snippetScore_additive.
  - intros lead id0 category0 content0 timestamp0 s. split.
    + rewrite selectRelevantSnippets_ranked, ranked_unfiltered. reflexivity.
    + apply snippetScore_exact_match. reflexivity.
Qed.

End Retriever.

(** ** PlaybackScheduler *)

Section Playback.

(** [String.prototype.trim] is a built-in of the platform; the properties
    hold for whatever function it is. *)
Variable trim : string -> string.

Variable cl : Closure.t.

Lemma handleTranscriptions_audio (env : Env.t) (sc : ServerContent.t)
  (st : Session.t) :
  let st' := handleTranscriptions trim cl env sc st in
  Session.nextStartTime st' = Session.nextStartTime st
  /\ Session.sources st' = Session.sources st
  /\ Session.created st' = Session.created st.
Proof.
  unfold handleTranscriptions.
  destruct (ServerContent.inputTranscription sc),
    (ServerContent.outputTranscription sc),
    (ServerContent.turnComplete sc),
    (truthy (trim (Closure.currentInput cl))),
    (truthy (trim (Closure.currentOutput cl))); simpl; auto.
Qed.

Lemma handleInterruptions_off (env : Env.t) (sc : ServerContent.t)
  (st : Session.t) :
  ServerContent.interrupted sc = false ->
  handleInterruptions cl env sc st = st.
Proof. unfold handleInterruptions. now intros ->. Qed.

Lemma handleInterruptions_on (env : Env.t) (sc : ServerContent.t)
  (st : Session.t) :
  ServerContent.interrupted sc = true ->
  let st' := handleInterruptions cl env sc st in
  Session.sources st' = [] /\ Session.nextStartTime st' = 0.
Proof.
  unfold handleInterruptions. intros ->.
  destruct (truthy (Closure.currentOutput cl)); simpl; auto.
Qed.

Lemma onmessage_schedules (env : Env.t) (sc : ServerContent.t)
  (st : Session.t) (d : Z) :
  ServerContent.modelTurnAudio sc = Some d ->
  ServerContent.interrupted sc = false ->
  let st' := onmessage trim cl env (Some sc) st in
  let src :=
    Source.mk (Session.created st)
      (Z.max (Session.nextStartTime st) (Env.currentTime env)) d in
  Session.sources st' = Session.sources st ++ [src]
  /\ Session.nextStartTime st' = Source.endTime src.
Proof.
  intros Ha Hi. simpl. rewrite (handleInterruptions_off _ _ _ Hi).
  unfold handleAudio. rewrite Ha.
  destruct (handleTranscriptions_audio env sc st) as [Hn [Hs Hc]].
  simpl. rewrite Hn, Hs, Hc. split; reflexivity.
Qed.

Lemma step_quiet (e : Event) (st : Session.t) :
  quiet e = true ->
  Session.nextStartTime (step trim cl st e) = Session.nextStartTime st
  /\ (Session.sources st = [] -> Session.sources (step trim cl st e) = []).
Proof.
  destruct e as [env [sc|] | source]; simpl.
  - destruct (ServerContent.modelTurnAudio sc) eqn:Ha; [discriminate|].
    intros Hq. apply negb_true_iff in Hq.
    rewrite (handleInterruptions_off _ _ _ Hq).
    unfold handleAudio. rewrite Ha.
    destruct (handleTranscriptions_audio env sc st) as [Hn [Hs _]].
    split; [exact Hn | now rewrite Hs].
  - auto.
  - intros _. unfold onended.
    destruct (Session.sources (Session.setSources _ st)) eqn:Hf;
      simpl in *; split; auto; intros Hnil; rewrite Hnil in Hf; auto.
    discriminate.
Qed.

Lemma run_quiet (events : list Event) (st : Session.t) :
  forallb quiet events = true ->
  Session.nextStartTime (run trim cl events st) = Session.nextStartTime st
  /\ (Session.sources st = [] -> Session.sources (run trim cl events st) = []).
Proof.
  revert st. induction events as [|e events IH]; intros st Hq; simpl.
  - auto.
  - apply andb_true_iff in Hq. destruct Hq as [He Hq].
    destruct (step_quiet e st He) as [Hn Hs].
    destruct (IH (step trim cl st e) Hq) as [Hn' Hs'].
    split; [now rewrite Hn', Hn | auto].
Qed.

Lemma StronglySorted_snoc {B : Type} (R : B -> B -> Prop) (l : list B)
  (x : B) :
  StronglySorted R l -> Forall (fun a => R a x) l ->
  StronglySorted R (l ++ [x]).
Proof.
  induction 1 as [|y l Hs IH Hy]; intros Hx; simpl.
  - constructor; constructor.
  - inversion Hx; subst. constructor; [now apply IH|].
    apply Forall_app. split; [assumption|]. constructor; [assumption|constructor].
Qed.

Lemma gapless_clock_same (st st' : Session.t) :
  Session.sources st' = Session.sources st ->
  Session.nextStartTime st' = Session.nextStartTime st ->
  gapless_clock st -> gapless_clock st'.
Proof. unfold gapless_clock. now intros -> ->. Qed.

Lemma handleAudio_gapless (env : Env.t) (sc : ServerContent.t)
  (st : Session.t) :
  well_formed (Message env (Some sc)) ->
  gapless_clock st -> gapless_clock (handleAudio env sc st).
Proof.
  unfold well_formed, handleAudio, gapless_clock.
  destruct (ServerContent.modelTurnAudio sc) as [d|]; [|auto].
  intros Hd [Hs Hc]. simpl. split.
  - apply StronglySorted_snoc; [assumption|].
    eapply Forall_impl; [|exact Hc]. simpl. intros a Ha. lia.
  - apply Forall_app. split.
    + eapply Forall_impl; [|exact Hc]. simpl. intros a Ha. lia.
    + constructor; [|constructor]. unfold Source.endTime; simpl. lia.
Qed.

Lemma step_gapless (e : Event) (st : Session.t) :
  well_formed e -> gapless_clock st -> gapless_clock (step trim cl st e).
Proof.
  destruct e as [env [sc|] | source]; simpl; intros Hw Hg.
  - destruct (ServerContent.interrupted sc) eqn:Hi.
    + destruct (handleInterruptions_on env sc
                  (handleAudio env sc (handleTranscriptions trim cl env sc st)) Hi)
        as [Hs Hn].
      unfold gapless_clock. rewrite Hs. split; constructor.
    + rewrite (handleInterruptions_off _ _ _ Hi).
      apply handleAudio_gapless; [exact Hw|].
      destruct (handleTranscriptions_audio env sc st) as [Hn [Hs _]].
      now apply (gapless_clock_same st).
  - assumption.
  - unfold onended.
    assert (Hf : gapless_clock
                   (Session.setSources
                      (filter (fun s => negb (Source.ident s =? source)%nat)
                         (Session.sources st)) st)).
    { destruct Hg as [Hs Hc]. split; simpl.
      - now apply StronglySorted_filter.
      - apply Forall_forall. intros a Ha. apply filter_In in Ha.
        rewrite Forall_forall in Hc. now apply Hc. }
    destruct (Session.sources (Session.setSources _ st)); [|exact Hf].
    eapply gapless_clock_same; [| |exact Hf]; reflexivity.
Qed.

Lemma run_gapless (events : list Event) (st : Session.t) :
  Forall well_formed events -> gapless_clock st ->
  gapless_clock (run trim cl events st).
Proof.
  intros Hw. revert st.
  induction Hw as [|e events He _ IH]; intros st Hg; simpl; [assumption|].
  apply IH. now apply step_gapless.
Qed.

End Playback.

(** C4. Each inbound buffer is started at max(nextStartTime, now) and the
    clock then advances by the buffer's duration; along every sequence of
    events the active sources never overlap and the clock is never before
    the end of one of them; a buffer that follows another one, with no
    interruption between the two, starts at the later of the end of the
    previous buffer and the time of its own arrival, so no gap is added;
    an interruption empties the active set and resets the clock, so that
    the next buffer starts at the time it arrives. *)
Theorem playback_schedule :
  forall trim : string -> string,
  (forall cl env sc st d,
      ServerContent.modelTurnAudio sc = Some d ->
      ServerContent.interrupted sc = false ->
      let st' := onmessage trim cl env (Some sc) st in
      let src :=
        Source.mk (Session.created st)
          (Z.max (Session.nextStartTime st) (Env.currentTime env)) d in
      Session.sources st' = Session.sources st ++ [src]
      /\ Session.nextStartTime st' = Source.startTime src + d)
  /\ (forall lead, gapless_clock (Session.mount lead))
  /\ (forall cl events st,
         Forall well_formed events -> gapless_clock st ->
         gapless_clock (run trim cl events st))
  /\ (forall cl env1 sc1 d1 between env2 sc2 d2 st,
         ServerContent.modelTurnAudio sc1 = Some d1 ->
         ServerContent.interrupted sc1 = false ->
         forallb quiet between = true ->
         ServerContent.modelTurnAudio sc2 = Some d2 ->
         ServerContent.interrupted sc2 = false ->
         let start1 := Z.max (Session.nextStartTime st) (Env.currentTime env1) in
         let st2 := run trim cl between (onmessage trim cl env1 (Some sc1) st) in
         exists ident2,
           Session.sources (onmessage trim cl env2 (Some sc2) st2)
           = Session.sources st2
               ++ [Source.mk ident2
                     (Z.max (start1 + d1) (Env.currentTime env2)) d2])
  /\ (forall cl env sc st,
         ServerContent.interrupted sc = true ->
         let st' := onmessage trim cl env (Some sc) st in
         Session.sources st' = [] /\ Session.nextStartTime st' = 0)
  /\ (forall cl env sc st between env2 sc2 d2,
         ServerContent.interrupted sc = true ->
         forallb quiet between = true ->
         ServerContent.modelTurnAudio sc2 = Some d2 ->
         ServerContent.interrupted sc2 = false ->
         0 <= Env.currentTime env2 ->
         let st2 := run trim cl between (onmessage trim cl env (Some sc) st) in
         exists ident2,
           Session.sources (onmessage trim cl env2 (Some sc2) st2)
           = [Source.mk ident2 (Env.currentTime env2) d2]).
Proof.
  intros trim.
  split; [|split; [|split; [|split; [|split]]]].
  - intros cl env sc st d Ha Hi. apply onmessage_schedules; assumption.
  - intros lead. unfold gapless_clock. simpl. split; constructor.
  - intros cl events st. apply run_gapless.
  - intros cl env1 sc1 d1 between env2 sc2 d2 st Ha1 Hi1 Hq Ha2 Hi2 start1 st2.
    destruct (onmessage_schedules trim cl env1 sc1 st d1 Ha1 Hi1) as [_ Hn1].
    destruct (run_quiet trim cl between (onmessage trim cl env1 (Some sc1) st) Hq)
      as [Hn _].
    destruct (onmessage_schedules trim cl env2 sc2 st2 d2 Ha2 Hi2) as [Hs2 _].
    exists (Session.created st2). rewrite Hs2. do 3 f_equal.
    unfold st2. rewrite Hn, Hn1. reflexivity.
  - intros cl env sc st Hi. simpl. now apply handleInterruptions_on.
  - intros cl env sc st between env2 sc2 d2 Hi Hq Ha2 Hi2 Hnow st2.
    assert (H0 : Session.sources (onmessage trim cl env (Some sc) st) = []
                 /\ Session.nextStartTime (onmessage trim cl env (Some sc) st) = 0).
    { simpl. now apply handleInterruptions_on. }
    destruct H0 as [Hs0 Hn0].
    destruct (run_quiet trim cl between (onmessage trim cl env (Some sc) st) Hq)
      as [Hn Hs].
    destruct (onmessage_schedules trim cl env2 sc2 st2 d2 Ha2 Hi2) as [Hs2 _].
    exists (Session.created st2). rewrite Hs2.
    unfold st2 at 1. rewrite (Hs Hs0). simpl. do 2 f_equal.
    unfold st2. rewrite Hn, Hn0. lia.
Qed.

(** ** TranscriptAssembler *)

Section Transcript.

(** [String.prototype.trim] is a built-in of the platform; the properties
    hold for whatever function it is. *)
Variable trim : string -> string.

Lemma handleAudio_transcript (env : Env.t) (sc : ServerContent.t)
  (st : Session.t) :
  let st' := handleAudio env sc st in
  Session.transcripts st' = Session.transcripts st
  /\ Session.currentInput st' = Session.currentInput st
  /\ Session.currentOutput st' = Session.currentOutput st.
Proof.
  unfold handleAudio.
  destruct (ServerContent.modelTurnAudio sc); simpl; auto.
Qed.

Lemma step_appends (cl : Closure.t) (e : Event) (st : Session.t) :
  exists suffix,
    Session.transcripts (step trim cl st e) = Session.transcripts st ++ suffix.
Proof.
  destruct e as [env [sc|] | source]; simpl.
  - unfold handleInterruptions, handleTranscriptions.
    destruct (handleAudio_transcript env sc
                (handleTranscriptions trim cl env sc st)) as [Ht _].
    unfold handleTranscriptions in Ht.
    destruct (ServerContent.interrupted sc),
      (ServerContent.inputTranscription sc),
      (ServerContent.outputTranscription sc),
      (ServerContent.turnComplete sc),
      (truthy (trim (Closure.currentInput cl))),
      (truthy (trim (Closure.currentOutput cl))),
      (truthy (Closure.currentOutput cl));
      simpl in *; rewrite Ht; rewrite <- ?app_assoc;
      eexists; try reflexivity; symmetry; apply app_nil_r.
  - exists []. now rewrite app_nil_r.
  - exists []. rewrite app_nil_r. unfold onended.
    destruct (Session.sources (Session.setSources _ st)); reflexivity.
Qed.

Lemma run_appends (cl : Closure.t) (events : list Event) (st : Session.t) :
  exists suffix,
    Session.transcripts (run trim cl events st) = Session.transcripts st ++ suffix.
Proof.
  revert st. induction events as [|e events IH]; intros st; simpl.
  - exists []. now rewrite app_nil_r.
  - destruct (step_appends cl e st) as [s1 H1].
    destruct (IH (step trim cl st e)) as [s2 H2].
    exists (s1 ++ s2). now rewrite H2, H1, app_assoc.
Qed.

Lemma onmessage_no_signal (cl : Closure.t) (env : Env.t)
  (sc : ServerContent.t) (st : Session.t) :
  ServerContent.turnComplete sc = false ->
  ServerContent.interrupted sc = false ->
  Session.transcripts (onmessage trim cl env (Some sc) st) = Session.transcripts st.
Proof.
  intros Ht Hi. simpl. unfold handleInterruptions. rewrite Hi.
  destruct (handleAudio_transcript env sc
              (handleTranscriptions trim cl env sc st)) as [-> _].
  unfold handleTranscriptions. rewrite Ht.
  destruct (ServerContent.inputTranscription sc),
    (ServerContent.outputTranscription sc); reflexivity.
Qed.

(** C5, as amended. On a turn-complete signal that carries no delta and no
    interruption, handled with a current view of the two accumulators, each
    accumulator that has a non-blank character is committed as exactly one
    entry with a timestamp and is cleared, the human entry before the agent
    entry, and a blank accumulator is neither committed nor cleared; along
    every sequence of events the log only grows at its end; and a message
    without turn-complete and without interruption leaves the log as it
    is, so partial text stays out of it. *)
Theorem turnComplete_commit :
  (forall env sc st,
      ServerContent.turnComplete sc = true ->
      ServerContent.interrupted sc = false ->
      ServerContent.inputTranscription sc = None ->
      ServerContent.outputTranscription sc = None ->
      let st' := onmessage trim (Closure.of_render st) env (Some sc) st in
      let committed role text :=
        if truthy (trim text)
        then [TranscriptEntry.mk role text (Env.localeTime env)] else [] in
      Session.transcripts st'
      = Session.transcripts st
          ++ committed user (Session.currentInput st)
          ++ committed model (Session.currentOutput st)
      /\ Session.currentInput st'
         = (if truthy (trim (Session.currentInput st)) then ""
            else Session.currentInput st)
      /\ Session.currentOutput st'
         = (if truthy (trim (Session.currentOutput st)) then ""
            else Session.currentOutput st))
  /\ (forall cl events st,
         exists suffix,
           Session.transcripts (run trim cl events st)
           = Session.transcripts st ++ suffix)
  /\ (forall cl env sc st,
         ServerContent.turnComplete sc = false ->
         ServerContent.interrupted sc = false ->
         Session.transcripts (onmessage trim cl env (Some sc) st)
         = Session.transcripts st).
Proof.
  split; [|split].
  - intros env sc st Ht Hi Hin Hout. simpl.
    unfold handleInterruptions. rewrite Hi.
    destruct (handleAudio_transcript env sc
                (handleTranscriptions trim (Closure.of_render st) env sc st))
      as [-> [-> ->]].
    unfold handleTranscriptions. rewrite Ht, Hin, Hout. simpl.
    destruct (truthy (trim (Session.currentInput st)));
      destruct (truthy (trim (Session.currentOutput st))); simpl;
      rewrite <- ?app_assoc, ?app_nil_r; auto.
  - exact run_appends.
  - exact onmessage_no_signal.
Qed.

(** With a current view of the agent accumulator the interruption path
    does what it is written for: a non-empty accumulator gives exactly one
    entry, its text followed by the truncation marker, and is cleared; an
    empty one gives no entry. *)
Lemma interruption_commit_current_view (env : Env.t) (st : Session.t) :
  let st' :=
    onmessage trim (Closure.of_render st) env (Some interruptedSignal) st in
  Session.transcripts st'
  = Session.transcripts st
      ++ (if truthy (Session.currentOutput st)
          then [TranscriptEntry.mk model
                  (Session.currentOutput st ++ "...")%string
                  (Env.localeTime env)]
          else [])
  /\ Session.currentOutput st' = "".
Proof.
  simpl. unfold handleInterruptions, handleAudio, handleTranscriptions. simpl.
  unfold truthy.
  destruct (String.eqb_spec (Session.currentOutput st) "") as [Heq|Hne]; simpl.
  - now rewrite app_nil_r.
  - split; reflexivity.
Qed.

(** In a session whose callbacks were created by a render with empty
    accumulators, no event ever commits anything. *)
Lemma empty_closure_never_commits (events : list Event) (st : Session.t) :
  trim "" = "" ->
  Session.transcripts (run trim (Closure.mk "" "") events st)
  = Session.transcripts st.
Proof.
  intros Hempty.
  revert st. induction events as [|e events IH]; intros st; simpl.
  - reflexivity.
  - rewrite IH. destruct e as [env [sc|] | source]; simpl.
    + unfold handleInterruptions. simpl.
      assert (Hk : Session.transcripts
                     (handleAudio env sc
                        (handleTranscriptions trim (Closure.mk "" "") env sc st))
                   = Session.transcripts st).
      { destruct (handleAudio_transcript env sc
                    (handleTranscriptions trim (Closure.mk "" "") env sc st))
          as [-> _].
        unfold handleTranscriptions. simpl. rewrite Hempty. simpl.
        destruct (ServerContent.inputTranscription sc),
          (ServerContent.outputTranscription sc),
          (ServerContent.turnComplete sc); reflexivity. }
      destruct (ServerContent.interrupted sc); simpl; exact Hk.
    + reflexivity.
    + unfold onended.
      destruct (Session.sources (Session.setSources _ st)); reflexivity.
Qed.

End Transcript.

(** ** End-call heuristic *)

(** C7. The update made when the session stops carries, for a committed
    transcript of length n: COMPLETED and Positive when n > 6, FAILED and
    Negative when n < 2, COMPLETED and Neutral otherwise; the recording and
    the transcript are part of that same update. *)
Theorem heuristic_outcome_update :
  forall (transcripts : list TranscriptEntry.t) (activeLead : Lead.t)
         (base64data : string),
    let n := List.length transcripts in
    exists upd,
      onloadend transcripts true (Some activeLead) base64data = Some upd
      /\ ((6 < n)%nat ->
          Lead.status upd = COMPLETED /\ Lead.sentiment upd = Some Positive)
      /\ ((n < 2)%nat ->
          Lead.status upd = FAILED /\ Lead.sentiment upd = Some Negative)
      /\ ((2 <= n <= 6)%nat ->
          Lead.status upd = COMPLETED /\ Lead.sentiment upd = Some Neutral)
      /\ Lead.recording upd = Some base64data
      /\ Lead.transcript upd = Some transcripts
      /\ Lead.id upd = Lead.id activeLead.
Proof.
  intros transcripts activeLead base64data n.
  unfold onloadend, heuristicOutcome. fold n.
  destruct (Nat.ltb_spec 6 n); [|destruct (Nat.ltb_spec n 2)];
    eexists; (split; [reflexivity|]); simpl;
    repeat split; try reflexivity; intros; lia.
Qed.

(** ** Lead mutation *)

(** C9. [handleUpdateLead] replaces the leads that have the id of the
    update by the update with its score recomputed by [calculateLeadScore]
    and keeps the others; the score the caller supplied has no influence;
    for the BOOKED update of the classification stage the stored score is
    the computed one, which is 100. *)
Theorem handleUpdateLead_rescores :
  forall (updatedData : Lead.t) (prev : list Lead.t),
    let stored :=
      Lead.with_score updatedData
        (calculateLeadScore (PartialLead.of_lead updatedData)) in
    Forall2
      (fun old new =>
         new = if (Lead.id old =? Lead.id updatedData)%string
               then stored else old)
      prev (handleUpdateLead updatedData prev)
    /\ Lead.score stored = calculateLeadScore (PartialLead.of_lead stored)
    /\ (forall supplied : Z,
           handleUpdateLead (Lead.with_score updatedData supplied) prev
           = handleUpdateLead updatedData prev)
    /\ (forall (currentLeadState : Lead.t) (sentiment : option Sentiment),
           let booked := bookedLead currentLeadState sentiment in
           handleUpdateLead booked [currentLeadState]
           = [Lead.with_score booked
                (calculateLeadScore (PartialLead.of_lead booked))]
           /\ calculateLeadScore (PartialLead.of_lead booked) = 100).
Proof.
  intros updatedData prev stored. split; [|split; [|split]].
  - unfold handleUpdateLead. fold stored.
    induction prev as [|l prev IH]; simpl; constructor; auto.
  - reflexivity.
  - intros supplied. reflexivity.
  - intros currentLeadState sentiment booked. split.
    + unfold handleUpdateLead. simpl. now rewrite String.eqb_refl.
    + apply (calculateLeadScore_BOOKED (Some (Lead.priceRange currentLeadState))).
Qed.

(** ** PostCallAnalyzer *)

Section PostCall.

(** [String.prototype.trim] is a built-in of the platform; the properties
    hold for whatever function it is. *)
Variable trim : string -> string.

Lemma existsb_snoc {B : Type} (f : B -> bool) (l : list B) (x : B) :
  existsb f (l ++ [x]) = existsb f l || f x.
Proof. rewrite existsb_app. simpl. now rewrite orb_false_r. Qed.

Ltac run_pipeline :=
  unfold processPostCall, classificationStage, extractionStage, bind,
    try_catch, request, emit, setSummary, setIsSummarizing,
    setLearningStatus, ret, startWorld; simpl.

Lemma fullTranscript_words (i : PostCallInput.t) :
  fullTranscript trim i
  = PostCallSpec.fullTranscript trim (PostCallInput.transcripts i)
      (PostCallInput.currentInput i) (PostCallInput.currentOutput i).
Proof.
  unfold fullTranscript, PostCallSpec.fullTranscript, PostCallSpec.trailing,
    truthy.
  destruct (trim (PostCallInput.currentInput i) =? "")%string;
    destruct (trim (PostCallInput.currentOutput i) =? "")%string; simpl;
    rewrite ?app_nil_r, <- ?app_assoc; reflexivity.
Qed.

Lemma processPostCall_stages_code :
  forall (i : PostCallInput.t) (summary0 learningStatus0 : option string),
    let full := fullTranscript trim i in
    exists w,
      processPostCall trim i (startWorld summary0 learningStatus0) = (Normal tt, w)
      /\ (forall e,
             PostCallInput.summaryReply i = Throw e -> full <> [] ->
             World.summary w = Some "Analysis temporarily unavailable."
             /\ existsb isUpdateLead (World.trace w) = false)
      /\ (existsb isAskTraining (World.trace w) = true
          <-> (4 < List.length full)%nat /\ PostCallInput.onLearn i = true)
      /\ (forall e,
             PostCallInput.summaryReply i = Throw e ->
             (4 < List.length full)%nat -> PostCallInput.onLearn i = true ->
             In (AskTraining (transcriptText full)) (World.trace w))
      /\ (forall e,
             PostCallInput.trainingReply i = Throw e ->
             (4 < List.length full)%nat -> PostCallInput.onLearn i = true ->
             World.learningStatus w
             = Some "Training skipped due to API timeout.").
Proof.
  intros i summary0 learningStatus0 full.
  run_pipeline. fold full.
  destruct full as [|t0 full']; simpl.
  - eexists. split; [reflexivity|]. simpl.
    repeat split; try (intros; simpl in *; try congruence; lia).
  - set (n := List.length full').
    destruct (Nat.ltb_spec 4 (S n)) as [Hn|Hn];
      destruct (PostCallInput.onLearn i) eqn:Hlearn; simpl;
      destruct (PostCallInput.summaryReply i) as [analysis|e1] eqn:Hsum; simpl;
      try destruct (PostCallInput.latestLead i) as [lead|]; simpl;
      try destruct ((Analysis.outcome analysis =? "BOOKED")%string
                    && PostCallInput.onUpdateLead i); simpl;
      try destruct (PostCallInput.trainingReply i) as [td|e2] eqn:Htr; simpl;
      try destruct (TrainingData.found td && truthy (TrainingData.content td));
      simpl;
      (eexists; split; [reflexivity|]; simpl;
       repeat split; intros; simpl in *;
       try congruence; try lia; try tauto; auto).
Qed.


(** C8. The full transcript of the pipeline is the committed entries
    followed by the trailing partials that trimming does not empty.
    Whatever the two requests do, the pipeline completes normally. If the
    classification stage fails, the summary is the fixed degraded message
    and no lead update was made. The extraction request is made if and only
    if that full transcript has more than 4 entries and the knowledge sink
    is there, also after a failed classification. If the extraction stage
    fails, its status text says that it was skipped. *)
Theorem processPostCall_stages :
  forall (i : PostCallInput.t) (summary0 learningStatus0 : option string),
    let full :=
      PostCallSpec.fullTranscript trim (PostCallInput.transcripts i)
        (PostCallInput.currentInput i) (PostCallInput.currentOutput i) in
    fullTranscript trim i = full
    /\ exists w,
        processPostCall trim i (startWorld summary0 learningStatus0)
        = (Normal tt, w)
        /\ (forall e,
               PostCallInput.summaryReply i = Throw e -> full <> [] ->
               World.summary w = Some "Analysis temporarily unavailable."
               /\ existsb isUpdateLead (World.trace w) = false)
        /\ (existsb isAskTraining (World.trace w) = true
            <-> (4 < List.length full)%nat /\ PostCallInput.onLearn i = true)
        /\ (forall e,
               PostCallInput.summaryReply i = Throw e ->
               (4 < List.length full)%nat -> PostCallInput.onLearn i = true ->
               In (AskTraining (transcriptText full)) (World.trace w))
        /\ (forall e,
               PostCallInput.trainingReply i = Throw e ->
               (4 < List.length full)%nat -> PostCallInput.onLearn i = true ->
               World.learningStatus w
               = Some "Training skipped due to API timeout.").
Proof.
  intros i summary0 learningStatus0 full.
  split; [apply fullTranscript_words|].
  unfold full. rewrite <- fullTranscript_words.
  apply processPostCall_stages_code.
Qed.

End PostCall.

(* ================================================================== *)
(** * Part III: the code on concrete inputs                            *)
(* ================================================================== *)

(** ** Retrieval *)

Example retrieval_scores :
  map (snippetScore asciiLowerCase Sample.dummyLead) Sample.kb
  = [1; 11; 1; 51; 16].
Proof. vm_compute. reflexivity. Qed.

Example retrieval_top3 :
  selectRelevantSnippets asciiLowerCase Sample.dummyLead Sample.kb
  = [Sample.ownSnippet; Sample.fusionSnippet; Sample.busySnippet].
Proof. vm_compute. reflexivity. Qed.

Example retrieval_ties_keep_order :
  selectRelevantSnippets asciiLowerCase Sample.dummyLead
    [Sample.plainSnippet; Sample.otherPlainSnippet]
  = [Sample.plainSnippet; Sample.otherPlainSnippet]
  /\ selectRelevantSnippets asciiLowerCase Sample.dummyLead
       [Sample.otherPlainSnippet; Sample.plainSnippet]
     = [Sample.otherPlainSnippet; Sample.plainSnippet].
Proof. split; vm_compute; reflexivity. Qed.

(** A lead without a cuisine gets no cuisine bonus. *)
Example retrieval_no_cuisine :
  snippetScore asciiLowerCase Sample.noCuisineLead Sample.plainSnippet = 1
  /\ snippetScore asciiLowerCase Sample.noCuisineLead Sample.busySnippet = 11.
Proof. split; vm_compute; reflexivity. Qed.

Lemma snippetScore_spec_witness :
  scoredSnippets asciiLowerCase Sample.dummyLead Sample.kb
  = map (fun s =>
           Scored.mk s
             (RetrieverSpec.score_claimed asciiLowerCase Sample.dummyLead s))
      Sample.kb.
Proof.
  apply (proj1 (snippetScore_spec asciiLowerCase) Sample.dummyLead Sample.kb).
  discriminate.
Defined.

Lemma selectRelevantSnippets_ranking_witness :
  selectRelevantSnippets asciiLowerCase Sample.dummyLead Sample.kb
  = selectRelevantSnippets asciiLowerCase Sample.dummyLead Sample.kb.
Proof.
  exact (proj2 (proj2 (proj2 (proj2
           (selectRelevantSnippets_ranking asciiLowerCase Sample.dummyLead
              Sample.kb))))
           Sample.dummyLead Sample.kb eq_refl eq_refl).
Defined.

(** ** Playback *)

Example playback_two_buffers :
  Session.sources
    (run asciiTrim (fst Sample.firstSession)
       [Message Sample.env0 (Some (Sample.audio 2400));
        Message Sample.env0 (Some (Sample.audio 1200));
        Message Sample.env1 (Some (Sample.audio 600))]
       (snd Sample.firstSession))
  = [Source.mk 0 0 2400; Source.mk 1 2400 1200; Source.mk 2 4800 600].
Proof. vm_compute. reflexivity. Qed.

Lemma playback_schedule_witness :
  exists ident2,
    Session.sources
      (onmessage asciiTrim (fst Sample.firstSession) Sample.env1
         (Some (Sample.audio 600))
         (run asciiTrim (fst Sample.firstSession) [Ended 7]
            (onmessage asciiTrim (fst Sample.firstSession) Sample.env0
               (Some interruptedSignal) (snd Sample.firstSession))))
    = [Source.mk ident2 4800 600].
Proof.
  exact (proj2 (proj2 (proj2 (proj2 (proj2 (playback_schedule asciiTrim)))))
           (fst Sample.firstSession) Sample.env0 interruptedSignal
           (snd Sample.firstSession) [Ended 7] Sample.env1 (Sample.audio 600)
           600 eq_refl eq_refl eq_refl eq_refl
           ltac:(vm_compute; discriminate)).
Defined.

(** ** Transcript *)

(** C5, as claimed, fails: an accumulator that holds a single space is not
    empty, yet the [trim()] guard neither commits nor clears it.  This only
    uses that trimming a single space leaves nothing. *)
Lemma blank_accumulator_not_committed (trim : string -> string) :
  trim " " = "" ->
  ~ commits_each_nonempty trim Sample.env0 Sample.blankInput.
Proof.
  intros Hblank. unfold commits_each_nonempty. simpl.
  unfold handleInterruptions, handleAudio, handleTranscriptions. simpl.
  rewrite Hblank. simpl.
  destruct (truthy (trim "")); simpl; intros [H _]; discriminate H.
Qed.

Lemma blank_accumulator_counterexample :
  ~ commits_each_nonempty asciiTrim Sample.env0 Sample.blankInput.
Proof. apply blank_accumulator_not_committed. reflexivity. Qed.

Lemma turnComplete_commit_witness :
  Session.transcripts
    (onmessage asciiTrim (Closure.of_render Sample.bothPartials) Sample.env0
       (Some turnCompleteSignal) Sample.bothPartials)
  = [TranscriptEntry.mk user "Hi, who is this?" "10:00:00 AM";
     TranscriptEntry.mk model "This is Alex from Host AI." "10:00:00 AM"].
Proof.
  exact (proj1 (proj1 (turnComplete_commit asciiTrim) Sample.env0 turnCompleteSignal
                  Sample.bothPartials eq_refl eq_refl eq_refl eq_refl)).
Defined.

(** C6 on the code: in the first session of a freshly mounted component
    the agent says "Hello there" and is interrupted.  The accumulator is
    not empty when the interruption arrives, but the handler still reads
    the empty [currentOutput] of the render that started the session:
    nothing is committed and the accumulator is not cleared. *)
Theorem interruption_reads_stale_partial :
  forall trim : string -> string,
  let cl := fst Sample.firstSession in
  let st1 :=
    run trim cl [Message Sample.env0 (Some Sample.agentDelta)]
      (snd Sample.firstSession) in
  let st2 := run trim cl [Message Sample.env1 (Some interruptedSignal)] st1 in
  Session.currentOutput st1 = "Hello there"
  /\ Session.transcripts st2 = Session.transcripts st1
  /\ Session.transcripts st2 = []
  /\ Session.currentOutput st2 = "Hello there".
Proof. intros trim. vm_compute. repeat split; reflexivity. Qed.

(** The same slip on the turn-complete path. *)
Example turnComplete_reads_stale_partial :
  let cl := fst Sample.firstSession in
  let st :=
    run asciiTrim cl [Message Sample.env0 (Some Sample.agentDelta);
            Message Sample.env1 (Some turnCompleteSignal)]
      (snd Sample.firstSession) in
  Session.transcripts st = [] /\ Session.currentOutput st = "Hello there".
Proof. vm_compute. split; reflexivity. Qed.

(** ** End of call *)

Lemma heuristic_outcome_update_witness :
  exists upd,
    onloadend Sample.sixEntries true (Some Sample.dummyLead) "data:audio/webm;base64,AAAA"
    = Some upd
    /\ Lead.status upd = COMPLETED /\ Lead.sentiment upd = Some Neutral.
Proof.
  destruct (heuristic_outcome_update Sample.sixEntries Sample.dummyLead
              "data:audio/webm;base64,AAAA")
    as [upd [Hupd [_ [_ [Hmid _]]]]].
  exists upd. split; [exact Hupd|].
  apply Hmid. simpl. lia.
Defined.

Lemma processPostCall_stages_witness :
  exists w,
    processPostCall asciiTrim Sample.postCallInput (startWorld None None) = (Normal tt, w)
    /\ World.summary w = Some "Analysis temporarily unavailable."
    /\ World.learningStatus w = Some "Training skipped due to API timeout.".
Proof.
  destruct (processPostCall_stages asciiTrim Sample.postCallInput None None)
    as [_ [w [Hrun [Hsum [_ [_ Htr]]]]]].
  exists w. split; [exact Hrun|]. split.
  - apply (Hsum "503" eq_refl). discriminate.
  - apply (Htr "timeout" eq_refl); [simpl; lia | reflexivity].
Defined.

(** ** Built-ins *)

Example includes_examples :
  includes "hello world" "o w" = true
  /\ includes "hello world" "" = true
  /\ includes "" "" = true
  /\ includes "hello" "hello!" = false
  /\ includes "send information" "send info" = true.
Proof. repeat split; reflexivity. Qed.

Example trim_examples :
  asciiTrim "  a b  " = "a b"
  /\ asciiTrim "   " = ""
  /\ asciiTrim "" = ""
  /\ truthy (asciiTrim " ") = false
  /\ truthy " " = true.
Proof. repeat split; reflexivity. Qed.

Example asciiLowerCase_example :
  asciiLowerCase "Modern Fusion, NY 10012" = "modern fusion, ny 10012".
Proof. reflexivity. Qed.

(* ================================================================== *)
(** * Part IV: further properties of the code                          *)
(* ================================================================== *)

(** ** The scorer *)

(** X1. With status and sentiment fixed, a higher price tier never gives a
    lower score: unknown or missing tier <= $$ <= $$$ <= $$$$, also after
    the clamp and under the BOOKED override. *)
Theorem calculateLeadScore_tier_monotone :
  forall (st : option CallStatus) (se : option Sentiment) (p : string),
    let f := fun tier => calculateLeadScore (PartialLead.mk tier st se) in
    f None <= f (Some "$$")
    /\ f (Some "$$") <= f (Some "$$$")
    /\ f (Some "$$$") <= f (Some "$$$$")
    /\ f None <= f (Some p) <= f (Some "$$$$").
Proof.
  intros st se p f. unfold f, calculateLeadScore. simpl.
  destruct (p =? "$$$$")%string; [|destruct (p =? "$$$")%string;
    [|destruct (p =? "$$")%string]];
    destruct st as [[]|]; destruct se as [[]|]; lia.
Qed.

(** X2. With price tier and status fixed, the score never decreases along
    Negative, absent, Neutral, Positive. *)
Theorem calculateLeadScore_sentiment_monotone :
  forall (tier : option string) (st : option CallStatus),
    let g := fun se => calculateLeadScore (PartialLead.mk tier st se) in
    g (Some Negative) <= g None
    /\ g None <= g (Some Neutral)
    /\ g (Some Neutral) <= g (Some Positive).
Proof.
  intros tier st g. unfold g, calculateLeadScore. simpl.
  destruct tier as [p|];
    [destruct (p =? "$$$$")%string; [|destruct (p =? "$$$")%string;
      [|destruct (p =? "$$")%string]]|];
    destruct st as [[]|]; lia.
Qed.

(** ** Lead mutation and lookup *)

Section LeadStore.

Lemma pushScored_id (u : Lead.t) : Lead.id (pushScored u) = Lead.id u.
Proof. reflexivity. Qed.

Lemma pushScored_scored (u : Lead.t) : scored (pushScored u).
Proof. reflexivity. Qed.

Lemma handleUpdateLead_cons (u l : Lead.t) (prev : list Lead.t) :
  handleUpdateLead u (l :: prev)
  = (if (Lead.id l =? Lead.id u)%string then pushScored u else l)
      :: handleUpdateLead u prev.
Proof. reflexivity. Qed.

Lemma handleUpdateLead_map_id (u : Lead.t) (prev : list Lead.t) :
  map Lead.id (handleUpdateLead u prev) = map Lead.id prev.
Proof.
  induction prev as [|l prev IH]; [reflexivity|].
  rewrite handleUpdateLead_cons. simpl. rewrite IH. f_equal.
  destruct (String.eqb_spec (Lead.id l) (Lead.id u)) as [Heq|_];
    [now rewrite pushScored_id | reflexivity].
Qed.

(** X3. An update never adds, removes or reorders leads: the list of ids,
    and so the number of leads, is unchanged. *)
Theorem handleUpdateLead_ids :
  forall (u : Lead.t) (prev : list Lead.t),
    map Lead.id (handleUpdateLead u prev) = map Lead.id prev
    /\ List.length (handleUpdateLead u prev) = List.length prev.
Proof.
  intros u prev. split; [apply handleUpdateLead_map_id|].
  unfold handleUpdateLead. apply length_map.
Qed.

Lemma handleUpdateLead_absent (u : Lead.t) (prev : list Lead.t) :
  ~ In (Lead.id u) (map Lead.id prev) -> handleUpdateLead u prev = prev.
Proof.
  induction prev as [|l prev IH]; intros Hnot; [reflexivity|].
  rewrite handleUpdateLead_cons.
  destruct (String.eqb_spec (Lead.id l) (Lead.id u)) as [Heq|_].
  - exfalso. apply Hnot. simpl. now left.
  - f_equal. apply IH. intros Hin. apply Hnot. simpl. now right.
Qed.

(** X4. An update whose id no stored lead has is dropped: the list is
    returned as it was. *)
Theorem handleUpdateLead_unknown_id :
  forall (u : Lead.t) (prev : list Lead.t),
    ~ In (Lead.id u) (map Lead.id prev) ->
    handleUpdateLead u prev = prev.
Proof. exact handleUpdateLead_absent. Qed.

(** X5. Of two updates for the same id the later one wins entirely, so an
    update is idempotent; updates for different ids commute. *)
Theorem handleUpdateLead_compose :
  forall (u1 u2 : Lead.t) (prev : list Lead.t),
    (Lead.id u1 = Lead.id u2 ->
     handleUpdateLead u2 (handleUpdateLead u1 prev) = handleUpdateLead u2 prev)
    /\ (Lead.id u1 <> Lead.id u2 ->
        handleUpdateLead u2 (handleUpdateLead u1 prev)
        = handleUpdateLead u1 (handleUpdateLead u2 prev)).
Proof.
  intros u1 u2 prev. split; intros Hid.
  - induction prev as [|l prev IH]; [reflexivity|].
    rewrite !handleUpdateLead_cons, IH. f_equal.
    destruct (String.eqb_spec (Lead.id l) (Lead.id u1)) as [H1|H1].
    + rewrite pushScored_id, Hid, String.eqb_refl.
      destruct (String.eqb_spec (Lead.id l) (Lead.id u2)); congruence.
    + reflexivity.
  - induction prev as [|l prev IH]; [reflexivity|].
    rewrite !handleUpdateLead_cons, IH. f_equal.
    destruct (String.eqb_spec (Lead.id l) (Lead.id u1)) as [H1|H1];
      destruct (String.eqb_spec (Lead.id l) (Lead.id u2)) as [H2|H2];
      rewrite ?pushScored_id;
      try (destruct (String.eqb_spec (Lead.id u1) (Lead.id u2)); [congruence|]);
      try (destruct (String.eqb_spec (Lead.id u2) (Lead.id u1)); [congruence|]);
      try (destruct (String.eqb_spec (Lead.id l) (Lead.id u1)); [|congruence]);
      try (destruct (String.eqb_spec (Lead.id l) (Lead.id u2)); [|congruence]);
      try reflexivity; try congruence.
Qed.

Lemma activeLead_updated (u : Lead.t) (prev : list Lead.t) :
  In (Lead.id u) (map Lead.id prev) ->
  activeLead (handleUpdateLead u prev) (Some (Lead.id u)) = Some (pushScored u).
Proof.
  induction prev as [|l prev IH]; intros Hin; [destruct Hin|].
  rewrite handleUpdateLead_cons. simpl.
  destruct (String.eqb_spec (Lead.id l) (Lead.id u)) as [Heq|Hne].
  - now rewrite pushScored_id, String.eqb_refl.
  - destruct (String.eqb_spec (Lead.id l) (Lead.id u)); [congruence|].
    apply IH. destruct Hin as [Hin|Hin]; [congruence|exact Hin].
Qed.

(** X6. Looking a lead up after an update: the id of the update gives the
    rescored update if a lead had that id and nothing otherwise; every
    other id gives what it gave before. *)
Theorem activeLead_after_update :
  forall (u : Lead.t) (prev : list Lead.t),
    (In (Lead.id u) (map Lead.id prev) ->
     activeLead (handleUpdateLead u prev) (Some (Lead.id u))
     = Some (pushScored u))
    /\ (~ In (Lead.id u) (map Lead.id prev) ->
        activeLead (handleUpdateLead u prev) (Some (Lead.id u)) = None)
    /\ (forall i, i <> Lead.id u ->
                  activeLead (handleUpdateLead u prev) (Some i)
                  = activeLead prev (Some i)).
Proof.
  intros u prev. split; [|split].
  - apply activeLead_updated.
  - intros Hnot. rewrite (handleUpdateLead_absent u prev Hnot).
    simpl. destruct (find _ prev) as [l|] eqn:Hf; [|reflexivity].
    apply find_some in Hf. destruct Hf as [Hin Heq].
    apply String.eqb_eq in Heq. exfalso. apply Hnot.
    rewrite <- Heq. now apply in_map.
  - intros i Hi. induction prev as [|l prev IH]; [reflexivity|].
    rewrite handleUpdateLead_cons. simpl in *.
    destruct (String.eqb_spec (Lead.id l) (Lead.id u)) as [Heq|Hne].
    + rewrite pushScored_id.
      destruct (String.eqb_spec (Lead.id u) i); [congruence|].
      destruct (String.eqb_spec (Lead.id l) i); [congruence|]. exact IH.
    + destruct (String.eqb_spec (Lead.id l) i); [reflexivity|exact IH].
Qed.

(** X7. When the stored ids are pairwise distinct, an update for a stored
    id replaces exactly one lead, by the rescored update, and leaves every
    other lead as it was. *)
Theorem handleUpdateLead_replaces_one :
  forall (u : Lead.t) (prev : list Lead.t),
    NoDup (map Lead.id prev) ->
    In (Lead.id u) (map Lead.id prev) ->
    exists before old after,
      prev = before ++ old :: after
      /\ Lead.id old = Lead.id u
      /\ handleUpdateLead u prev = before ++ pushScored u :: after.
Proof.
  intros u prev. induction prev as [|l prev IH]; intros Hnd Hin;
    [destruct Hin|].
  simpl in Hnd. inversion Hnd as [|? ? Hnotin Hnd']; subst.
  rewrite handleUpdateLead_cons.
  destruct (String.eqb_spec (Lead.id l) (Lead.id u)) as [Heq|Hne].
  - exists [], l, prev. repeat split; [exact Heq|]. simpl. f_equal.
    apply handleUpdateLead_absent. now rewrite <- Heq.
  - destruct Hin as [Hin|Hin]; [congruence|].
    destruct (IH Hnd' Hin) as [b [old [a [Hprev [Hid Hup]]]]].
    exists (l :: b), old, a. repeat split; [now rewrite Hprev|exact Hid|].
    simpl. now rewrite Hup.
Qed.

Lemma handleUpdateLead_scored (u : Lead.t) (prev : list Lead.t) :
  Forall scored prev -> Forall scored (handleUpdateLead u prev).
Proof.
  induction 1 as [|l prev Hl _ IH]; [constructor|].
  rewrite handleUpdateLead_cons. constructor; [|exact IH].
  destruct (Lead.id l =? Lead.id u)%string;
    [apply pushScored_scored | exact Hl].
Qed.

Lemma distinct_NoDup (l : list string) : distinct l = true -> NoDup l.
Proof.
  induction l as [|x l IH]; simpl; intros H; constructor.
  - apply andb_true_iff in H. destruct H as [H _].
    apply negb_true_iff in H. intros Hin.
    assert (existsb (String.eqb x) l = true); [|congruence].
    apply existsb_exists. exists x. split; [exact Hin|apply String.eqb_refl].
  - apply IH. apply andb_true_iff in H. now destruct H.
Qed.

Lemma generateManhattanLeads_scored : Forall scored generateManhattanLeads.
Proof.
  unfold generateManhattanLeads. apply Forall_app. split;
    apply Forall_forall; intros l Hl; apply in_map_iff in Hl;
    destruct Hl as [x [<- _]].
  - unfold topTierLead. destruct (snd x) as [[name contact] cuisine].
    apply pushScored_scored.
  - apply pushScored_scored.
Qed.

(** X8. The seed data has 50 leads with pairwise distinct ids, each with the
    score [calculateLeadScore] gives it; and whatever updates are applied
    to it, the stored leads keep those ids and every stored score stays
    the computed one. *)
Theorem seeded_leads_invariant :
  forall updates : list Lead.t,
    let leads :=
      fold_left (fun ls u => handleUpdateLead u ls) updates
        generateManhattanLeads in
    List.length leads = 50%nat
    /\ NoDup (map Lead.id leads)
    /\ map Lead.id leads = map Lead.id generateManhattanLeads
    /\ Forall scored leads.
Proof.
  intros updates.
  assert (Hgen : forall start,
             let leads := fold_left (fun ls u => handleUpdateLead u ls)
                            updates start in
             map Lead.id leads = map Lead.id start
             /\ (Forall scored start -> Forall scored leads)).
  { induction updates as [|u updates IH]; intros start; simpl.
    - split; auto.
    - destruct (IH (handleUpdateLead u start)) as [Hids Hsc]. split.
      + rewrite Hids. apply handleUpdateLead_map_id.
      + intros Hs. apply Hsc. now apply handleUpdateLead_scored. }
  intros leads. destruct (Hgen generateManhattanLeads) as [Hids Hsc].
  fold leads in Hids, Hsc.
  split; [|split; [|split]].
  - rewrite <- (length_map Lead.id), Hids. vm_compute. reflexivity.
  - rewrite Hids. apply distinct_NoDup. vm_compute. reflexivity.
  - exact Hids.
  - apply Hsc, generateManhattanLeads_scored.
Qed.

End LeadStore.

(** ** More on [Array_sort] *)

Section SortMore.

Context {A : Type}.

Lemma sort_insert_Permutation (cmp : A -> A -> Z) (a : A) (l : list A) :
  Permutation (sort_insert cmp a l) (a :: l).
Proof.
  induction l as [|b l IH]; simpl; [apply Permutation_refl|].
  destruct (cmp a b <=? 0); [apply Permutation_refl|].
  eapply Permutation_trans; [apply perm_skip, IH|apply perm_swap].
Qed.

Lemma Array_sort_Permutation (cmp : A -> A -> Z) (l : list A) :
  Permutation (Array_sort cmp l) l.
Proof.
  induction l as [|a l IH]; simpl; [apply Permutation_refl|].
  eapply Permutation_trans; [apply sort_insert_Permutation|].
  now apply perm_skip.
Qed.

(** Sorting by descending key: the result, paired with input positions, is
    strictly ordered by larger key and then smaller position. *)
Lemma Array_sort_stable (key : A -> Z) (l : list A) :
  exists T : list (nat * A),
    map snd T = Array_sort (descending key) l
    /\ StronglySorted (before key) T
    /\ Forall (fun x => nth_error l (fst x) = Some (snd x)) T.
Proof.
  exists (Array_sort (descending_tagged key) (tag 0 l)).
  split; [|split].
  - now rewrite Array_sort_untag, tag_untag.
  - apply Array_sort_before, tag_increasing.
  - apply Array_sort_Forall.
    eapply Forall_impl; [|apply (tag_nth_error 0 l)].
    simpl. intros x [_ Hx]. now rewrite Nat.sub_0_r in Hx.
Qed.

(** An element whose key is not below any other key stays in front. *)
Lemma Array_sort_head (key : A -> Z) (a : A) (l : list A) :
  Forall (fun b => key b <= key a) l ->
  Array_sort (descending key) (a :: l) = a :: Array_sort (descending key) l.
Proof.
  intros Hle. simpl.
  assert (Hs : Forall (fun b => key b <= key a) (Array_sort (descending key) l))
    by now apply Array_sort_Forall.
  destruct (Array_sort (descending key) l) as [|b l']; [reflexivity|].
  simpl. inversion Hs; subst. unfold descending at 1.
  destruct (Z.leb_spec (key b - key a) 0); [reflexivity|lia].
Qed.

End SortMore.

(** ** The lead table *)

Section LeadTableFacts.

Variable toLowerCase : string -> string.
Variable localeCompare : string -> string -> Z.

Lemma includes_empty (s : string) : includes s "" = true.
Proof. destruct s; reflexivity. Qed.

(** X9. The table shows exactly the leads that match the search term in
    the restaurant name or the contact name, each as often as it is stored:
    the result is a permutation of the matching leads, for either sort
    order and any [localeCompare]. *)
Theorem filteredLeads_content :
  forall (leads : list Lead.t) (searchTerm : string) (sortBy : SortBy),
    let shown := filteredLeads toLowerCase localeCompare leads searchTerm sortBy in
    Permutation shown (filter (matchesSearch toLowerCase searchTerm) leads)
    /\ (forall l, In l shown
                  <-> In l leads /\ matchesSearch toLowerCase searchTerm l = true)
    /\ (List.length shown <= List.length leads)%nat.
Proof.
  intros leads searchTerm sortBy shown.
  assert (Hp : Permutation shown
                 (filter (matchesSearch toLowerCase searchTerm) leads))
    by apply Array_sort_Permutation.
  split; [exact Hp|split].
  - intros l. rewrite <- filter_In. split; intros H.
    + eapply Permutation_in; [exact Hp|exact H].
    + eapply Permutation_in; [apply Permutation_sym, Hp|exact H].
  - rewrite (Permutation_length Hp). apply filter_length_le.
Qed.

(** X10. Sorted by score, the table is in non-increasing score order, and
    leads of equal score keep the order in which they are stored. *)
Theorem filteredLeads_by_score :
  forall (leads : list Lead.t) (searchTerm : string),
    let matching := filter (matchesSearch toLowerCase searchTerm) leads in
    let shown := filteredLeads toLowerCase localeCompare leads searchTerm by_score in
    StronglySorted (fun a b => Lead.score a >= Lead.score b) shown
    /\ exists T : list (nat * Lead.t),
        map snd T = shown
        /\ StronglySorted (before Lead.score) T
        /\ Forall (fun x => nth_error matching (fst x) = Some (snd x)) T.
Proof.
  intros leads searchTerm matching shown.
  destruct (Array_sort_stable Lead.score matching) as [T [HT [Hs Hn]]].
  assert (Hshown : map snd T = shown) by exact HT.
  split.
  - rewrite <- Hshown.
    eapply StronglySorted_map_In; [|exact Hs].
    intros x y _ _ Hb. unfold before in Hb. lia.
  - exists T. auto.
Qed.

(** X11. With an empty search box every stored lead is shown. *)
Theorem filteredLeads_empty_search :
  forall (leads : list Lead.t) (sortBy : SortBy),
    toLowerCase "" = "" ->
    Permutation (filteredLeads toLowerCase localeCompare leads "" sortBy) leads.
Proof.
  intros leads sortBy Hlow. unfold filteredLeads.
  eapply Permutation_trans; [apply Array_sort_Permutation|].
  rewrite filter_keeps_all; [apply Permutation_refl|].
  apply Forall_forall. intros l _. unfold matchesSearch.
  now rewrite Hlow, includes_empty.
Qed.

End LeadTableFacts.

(** X12. The score bar of a lead is green exactly when the lead is BOOKED,
    or has Positive sentiment and is either COMPLETED in the top price tier
    or IN_PROGRESS in one of the two top tiers. *)
Theorem green_score_bar :
  forall lead : Lead.t,
    getScoreColor (calculateLeadScore (PartialLead.of_lead lead)) = "bg-green-500"
    <-> Lead.status lead = BOOKED
        \/ (Lead.sentiment lead = Some Positive
            /\ ((Lead.status lead = COMPLETED /\ Lead.priceRange lead = "$$$$")
                \/ (Lead.status lead = IN_PROGRESS
                    /\ (Lead.priceRange lead = "$$$$"
                        \/ Lead.priceRange lead = "$$$")))).
Proof.
  intros lead. unfold getScoreColor, calculateLeadScore. simpl.
  destruct (String.eqb_spec (Lead.priceRange lead) "$$$$") as [H4|H4];
    [|destruct (String.eqb_spec (Lead.priceRange lead) "$$$") as [H3|H3];
      [|destruct (String.eqb_spec (Lead.priceRange lead) "$$") as [H2|H2]]];
    destruct (Lead.status lead); destruct (Lead.sentiment lead) as [[]|];
    simpl; split; intros H;
    try discriminate; try (left; reflexivity); try reflexivity;
    try (right; split; [reflexivity|]; auto; fail);
    try (destruct H as [H|[H [[H' H'']|[H' [H''|H'']]]]]; congruence).
Qed.

(** ** More on retrieval *)

Section RetrieverMore.

Variable toLowerCase : string -> string.

Lemma scoredSnippets_snippets (lead : Lead.t) (kb : list KnowledgeSnippet.t) :
  map Scored.snippet (scoredSnippets toLowerCase lead kb) = kb.
Proof.
  unfold scoredSnippets. rewrite map_map. simpl. apply map_id.
Qed.

(** X13. Retrieval only selects: the result together with some remainder
    is a rearrangement of the knowledge base, so every returned snippet is
    a stored one and none is returned more often than it is stored; a
    knowledge base of at most 3 snippets is returned whole. *)
Theorem selectRelevantSnippets_selects :
  forall (lead : Lead.t) (kb : list KnowledgeSnippet.t),
    let out := selectRelevantSnippets toLowerCase lead kb in
    (exists rest, Permutation (out ++ rest) kb)
    /\ ((List.length kb <= 3)%nat -> Permutation out kb).
Proof.
  intros lead kb out.
  set (sorted := Array_sort (fun a b => Scored.score b - Scored.score a)
                   (scoredSnippets toLowerCase lead kb)).
  assert (Hout : out = map Scored.snippet (firstn 3 sorted)).
  { unfold out. now rewrite selectRelevantSnippets_ranked, ranked_unfiltered. }
  assert (Hall : Permutation (map Scored.snippet sorted) kb).
  { eapply Permutation_trans;
      [apply Permutation_map, Array_sort_Permutation|].
    rewrite scoredSnippets_snippets. apply Permutation_refl. }
  split.
  - exists (map Scored.snippet (skipn 3 sorted)).
    now rewrite Hout, <- map_app, firstn_skipn.
  - intros Hlen. rewrite Hout, firstn_all2; [exact Hall|].
    unfold sorted. rewrite Array_sort_length. unfold scoredSnippets.
    now rewrite length_map.
Qed.

(** X14. Every retrieval score lies between 1 and 171: the ten keywords
    give at most 100, and the two category bonuses exclude each other. *)
Theorem snippetScore_bounds :
  forall (lead : Lead.t) (s : KnowledgeSnippet.t),
    1 <= snippetScore toLowerCase lead s <= 171.
Proof.
  intros lead s. rewrite snippetScore_additive.
  unfold RetrieverSpec.score, RetrieverSpec.exact_match,
    RetrieverSpec.cuisine_match_nonempty, RetrieverSpec.keyword_overlap,
    RetrieverSpec.affinity, RetrieverSpec.tie_break.
  assert (Hk : (List.length (RetrieverSpec.shared_keywords toLowerCase lead s)
                <= 10)%nat).
  { unfold RetrieverSpec.shared_keywords.
    eapply Nat.le_trans; [apply filter_length_le|].
    unfold RetrieverSpec.vocabulary. simpl. lia. }
  destruct (_ =? _)%string; destruct (negb _ && _); destruct (Lead.status lead);
    destruct (KnowledgeSnippet.category s);
    destruct (Lead.priceRange lead =? "$$$$")%string; lia.
Qed.

(** X15. New knowledge is put in front of the knowledge base, and among
    equal scores the earlier snippet wins: a newly learned snippet that no
    stored snippet outscores is returned first, followed by the two best
    of the previous result. *)
Theorem learned_snippet_ranks_first :
  forall (lead : Lead.t) (s : KnowledgeSnippet.t)
         (kb : list KnowledgeSnippet.t),
    Forall (fun s' => snippetScore toLowerCase lead s'
                      <= snippetScore toLowerCase lead s) kb ->
    selectRelevantSnippets toLowerCase lead (handleLearnFromCall s kb)
    = s :: firstn 2 (selectRelevantSnippets toLowerCase lead kb).
Proof.
  intros lead s kb Hle. unfold handleLearnFromCall.
  rewrite !selectRelevantSnippets_ranked, !ranked_unfiltered.
  change (scoredSnippets toLowerCase lead (s :: kb))
    with (Scored.mk s (snippetScore toLowerCase lead s)
            :: scoredSnippets toLowerCase lead kb).
  change (fun a b : Scored.t => Scored.score b - Scored.score a)
    with (descending Scored.score).
  rewrite Array_sort_head.
  - destruct (Array_sort (descending Scored.score)
                (scoredSnippets toLowerCase lead kb)) as [|a [|b [|c l]]];
      reflexivity.
  - unfold scoredSnippets. apply Forall_forall. intros item Hin.
    apply in_map_iff in Hin. destruct Hin as [s' [<- Hs']]. simpl.
    rewrite Forall_forall in Hle. now apply Hle.
Qed.

End RetrieverMore.

(** ** More on the live session *)

Section SessionMore.

(** [String.prototype.trim] is a built-in of the platform; the properties
    hold for whatever function it is. *)
Variable trim : string -> string.

Variable cl : Closure.t.

Lemma handleTranscriptions_status (env : Env.t) (sc : ServerContent.t)
  (st : Session.t) :
  Session.status (handleTranscriptions trim cl env sc st) = Session.status st.
Proof.
  unfold handleTranscriptions.
  destruct (ServerContent.inputTranscription sc),
    (ServerContent.outputTranscription sc),
    (ServerContent.turnComplete sc),
    (truthy (trim (Closure.currentInput cl))),
    (truthy (trim (Closure.currentOutput cl))); reflexivity.
Qed.

Lemma step_clock_forward (e : Event) (st : Session.t) :
  well_formed e -> interrupts e = false ->
  Session.nextStartTime st <= Session.nextStartTime (step trim cl st e).
Proof.
  destruct e as [env [sc|] | source]; simpl; intros Hw Hi.
  - rewrite (handleInterruptions_off _ _ _ _ Hi).
    destruct (handleTranscriptions_audio trim cl env sc st) as [Hn _].
    unfold handleAudio.
    destruct (ServerContent.modelTurnAudio sc) as [d|]; simpl; lia.
  - lia.
  - unfold onended.
    destruct (Session.sources (Session.setSources _ st)); simpl; lia.
Qed.

Lemma step_speaking (e : Event) (st : Session.t) :
  speaking_while_active st -> speaking_while_active (step trim cl st e).
Proof.
  unfold speaking_while_active.
  destruct e as [env [sc|] | source]; simpl; intros Hinv.
  - pose proof (handleTranscriptions_status env sc st) as Hst.
    destruct (handleTranscriptions_audio trim cl env sc st) as [_ [Hso _]].
    unfold handleInterruptions, handleAudio.
    destruct (ServerContent.interrupted sc);
      destruct (ServerContent.modelTurnAudio sc) as [d|];
      destruct (truthy (Closure.currentOutput cl)); simpl;
      rewrite ?Hst, ?Hso;
      try exact Hinv;
      try (split; [discriminate | intros H; now contradiction H]);
      (split; [intros _ H; now apply app_eq_nil in H as [_ H] | reflexivity]).
  - exact Hinv.
  - unfold onended.
    destruct (Session.sources (Session.setSources _ st)) as [|a l] eqn:Hf;
      simpl in *.
    + split; [discriminate | intros H; now contradiction H].
    + rewrite Hf. split; [discriminate|]. intros _. apply Hinv.
      intros Hnil. rewrite Hnil in Hf. discriminate.
Qed.

End SessionMore.

(** X16. The scheduling clock is forward-only: along events that carry no
    interruption, and buffers of non-negative duration, [nextStartTime]
    never decreases. *)
Theorem clock_forward_only :
  forall (trim : string -> string) (cl : Closure.t) (events : list Event)
         (st : Session.t),
    Forall well_formed events ->
    existsb interrupts events = false ->
    Session.nextStartTime st <= Session.nextStartTime (run trim cl events st).
Proof.
  intros trim cl events st Hw. revert st.
  induction Hw as [|e events He _ IH]; intros st Hi; [simpl; lia|].
  simpl in Hi. apply orb_false_iff in Hi. destruct Hi as [Hie Hi].
  pose proof (step_clock_forward trim cl e st He Hie) as Hstep.
  specialize (IH (step trim cl st e) Hi).
  change (run trim cl (e :: events) st) with (run trim cl events (step trim cl st e)).
  lia.
Qed.

(** X17. From the first render on, after every event of a session the
    status is 'speaking' exactly when some scheduled source is still
    active. *)
Theorem speaking_iff_active :
  forall (trim : string -> string) (cl : Closure.t) (events : list Event)
         (st : Session.t),
    speaking_while_active st ->
    speaking_while_active (run trim cl events st).
Proof.
  intros trim cl events. induction events as [|e events IH]; intros st Hinv;
    simpl; [exact Hinv|].
  apply IH. now apply step_speaking.
Qed.

(** ** More on the post-call pipeline *)

Section PostCallMore.

(** [String.prototype.trim] is a built-in of the platform; the properties
    hold for whatever function it is. *)
Variable trim : string -> string.

Ltac unfold_pipeline :=
  unfold processPostCall, classificationStage, extractionStage, bind,
    try_catch, request, emit, setSummary, setIsSummarizing,
    setLearningStatus, ret, startWorld; simpl.

Ltac pipeline_cases i analysis cur td Hout Hcontent :=
  match goal with
  | |- context [(4 <? ?n)%nat] => destruct (4 <? n)%nat eqn:Hlen
  end;
  destruct (PostCallInput.onLearn i) eqn:Hlearn; simpl;
  destruct (PostCallInput.summaryReply i) as [analysis|e1] eqn:Hsum; simpl;
  try destruct (PostCallInput.latestLead i) as [cur|] eqn:Hcur; simpl;
  try destruct (String.eqb_spec (Analysis.outcome analysis) "BOOKED")
    as [Hout|Hout]; simpl;
  try destruct (PostCallInput.onUpdateLead i) eqn:Hupd; simpl;
  try destruct (PostCallInput.trainingReply i) as [td|e2] eqn:Htr; simpl;
  try destruct (TrainingData.found td) eqn:Hfound; simpl;
  try destruct (truthy (TrainingData.content td)) eqn:Hcontent; simpl.

Lemma fullTranscript_empty (i : PostCallInput.t) :
  fullTranscript trim i = []
  <-> PostCallInput.transcripts i = []
      /\ truthy (trim (PostCallInput.currentInput i)) = false
      /\ truthy (trim (PostCallInput.currentOutput i)) = false.
Proof.
  unfold fullTranscript.
  destruct (truthy (trim (PostCallInput.currentInput i)));
    destruct (truthy (trim (PostCallInput.currentOutput i)));
    (split; [intros H | intros (Ht & Hi & Ho)]);
    try discriminate;
    try (apply app_eq_nil in H; destruct H as [_ H]; discriminate).
  - repeat split; auto.
  - exact Ht.
Qed.

Lemma not_truthy_iff (x : string) : truthy x = false <-> x = "".
Proof.
  unfold truthy. destruct (String.eqb_spec x ""); simpl; split;
    intros H; congruence.
Qed.

(** X18. When nothing was said (no committed entry, and both partials are
    emptied by trimming) the pipeline returns at once: no request is made
    and no state is written. Otherwise it asks for the summary first, about
    the committed entries followed by the trailing partials, and always
    ends with the busy flag cleared. *)
Theorem processPostCall_edges :
  forall (i : PostCallInput.t) (w : World.t),
    let full :=
      PostCallSpec.fullTranscript trim (PostCallInput.transcripts i)
        (PostCallInput.currentInput i) (PostCallInput.currentOutput i) in
    (full = []
     <-> PostCallInput.transcripts i = []
         /\ trim (PostCallInput.currentInput i) = ""
         /\ trim (PostCallInput.currentOutput i) = "")
    /\ (full = [] -> processPostCall trim i w = (Normal tt, w))
    /\ (full <> [] ->
        exists w' rest,
          processPostCall trim i w = (Normal tt, w')
          /\ World.isSummarizing w' = false
          /\ World.trace w'
             = World.trace w ++ AskSummary (transcriptText full) :: rest).
Proof.
  intros i w full.
  assert (Hfull : fullTranscript trim i = full).
  { unfold full, fullTranscript, PostCallSpec.fullTranscript,
      PostCallSpec.trailing, truthy.
    destruct (trim (PostCallInput.currentInput i) =? "")%string;
      destruct (trim (PostCallInput.currentOutput i) =? "")%string; simpl;
      rewrite ?app_nil_r, <- ?app_assoc; reflexivity. }
  rewrite <- Hfull. split; [|split].
  - rewrite fullTranscript_empty, !not_truthy_iff. reflexivity.
  - intros Hnil. unfold processPostCall. now rewrite Hnil.
  - intros Hne. unfold_pipeline.
    destruct (fullTranscript trim i) as [|t0 full'] eqn:Hf; [congruence|].
    simpl List.length. cbn [Nat.eqb].
    pipeline_cases i analysis cur td Hout Hcontent;
      eexists; eexists; (split; [reflexivity|]); simpl;
      (split; [reflexivity|]);
      rewrite <- ?app_assoc; simpl; reflexivity.
Qed.

(** X19. The pipeline changes a lead only to record a booking: it makes at
    most one lead update, and only when the classification succeeded with
    outcome "BOOKED", the update handler is supplied and a current lead is
    known; the update is that lead with status BOOKED, the classified
    sentiment and score 100. Outcomes COMPLETED and FAILED update
    nothing. *)
Theorem processPostCall_lead_updates :
  forall (i : PostCallInput.t) (summary0 learningStatus0 : option string),
    let w := snd (processPostCall trim i (startWorld summary0 learningStatus0)) in
    (List.length (filter isUpdateLead (World.trace w)) <= 1)%nat
    /\ (forall l, In (UpdateLead l) (World.trace w) ->
                  exists cur analysis,
                    PostCallInput.latestLead i = Some cur
                    /\ PostCallInput.summaryReply i = Normal analysis
                    /\ Analysis.outcome analysis = "BOOKED"
                    /\ PostCallInput.onUpdateLead i = true
                    /\ l = bookedLead cur (Analysis.sentiment analysis)
                    /\ Lead.status l = BOOKED
                    /\ Lead.score l = 100).
Proof.
  intros i summary0 learningStatus0. unfold_pipeline.
  destruct (fullTranscript trim i) as [|t0 full'] eqn:Hfull; simpl.
  - split; [lia|]. intros l [].
  - pipeline_cases i analysis cur td Hout Hcontent; (split; [simpl; lia|]); intros l Hin; simpl in Hin;
      repeat (destruct Hin as [Hin|Hin]; try discriminate Hin);
      try contradiction;
      injection Hin as <-; exists cur, analysis; repeat split; auto.
Qed.

(** X20. The pipeline learns at most one snippet per call, only from a full
    transcript of more than 4 entries and only a non-empty technique that
    the extraction reported as found; the snippet is attributed to the
    restaurant of the call, so at the next retrieval for that lead it
    scores at least 51. *)
Theorem processPostCall_learns :
  forall (toLowerCase : string -> string) (i : PostCallInput.t)
         (summary0 learningStatus0 : option string),
    let w := snd (processPostCall trim i (startWorld summary0 learningStatus0)) in
    (List.length (filter isLearn (World.trace w)) <= 1)%nat
    /\ (forall s, In (Learn s) (World.trace w) ->
                  (4 < List.length (fullTranscript trim i))%nat
                  /\ PostCallInput.onLearn i = true
                  /\ (exists td,
                         PostCallInput.trainingReply i = Normal td
                         /\ TrainingData.found td = true
                         /\ KnowledgeSnippet.content s = TrainingData.content td
                         /\ KnowledgeSnippet.category s = TrainingData.category td)
                  /\ KnowledgeSnippet.content s <> ""
                  /\ KnowledgeSnippet.sourceRestaurant s
                     = Lead.restaurantName (PostCallInput.effectiveLead i)
                  /\ 51 <= snippetScore toLowerCase
                             (PostCallInput.effectiveLead i) s).
Proof.
  intros toLowerCase i summary0 learningStatus0. unfold_pipeline.
  destruct (fullTranscript trim i) as [|t0 full'] eqn:Hfull; simpl.
  - split; [lia|]. intros s [].
  - pipeline_cases i analysis cur td Hout Hcontent; (split; [simpl; lia|]); intros s Hin; simpl in Hin;
      repeat (destruct Hin as [Hin|Hin]; try discriminate Hin);
      try contradiction;
      injection Hin as <-; simpl;
      (split; [now apply Nat.ltb_lt|]);
      (split; [reflexivity|]);
      (split; [exists td; repeat split; auto|]);
      (split; [intros Hempty; unfold truthy in Hcontent;
               rewrite Hempty in Hcontent; discriminate|]);
      (split; [reflexivity|]);
      apply snippetScore_exact_match; reflexivity.
Qed.

Lemma short_transcript_no_extraction (i : PostCallInput.t)
  (summary0 learningStatus0 : option string) :
  (List.length (fullTranscript trim i) <= 4)%nat ->
  existsb isAskTraining
    (World.trace (snd (processPostCall trim i (startWorld summary0 learningStatus0))))
  = false.
Proof.
  unfold_pipeline.
  destruct (fullTranscript trim i) as [|t0 full'] eqn:Hfull; simpl;
    [reflexivity|].
  intros Hshort.
  pipeline_cases i analysis cur td Hout Hcontent;
    try reflexivity; apply Nat.ltb_lt in Hlen; lia.
Qed.

End PostCallMore.

(** ** The end-call update and the score it stores *)

(** X21. The end-call update stores, for a transcript of n committed
    entries and a lead of base score b (40, 30, 20 or 10 by price tier):
    b + 40 when n > 6, 0 when n < 2 and b + 15 otherwise, whatever status,
    sentiment and score the lead had before; without an active lead or
    without the update handler nothing is stored. *)
Theorem end_call_score :
  forall (transcripts : list TranscriptEntry.t) (lead : Lead.t)
         (base64data : string) (leads : list Lead.t),
    let n := List.length transcripts in
    let b := LeadScorerSpec.base (Lead.priceRange lead) in
    (exists upd,
        onloadend transcripts true (Some lead) base64data = Some upd
        /\ calculateLeadScore (PartialLead.of_lead upd)
           = (if (6 <? n)%nat then b + 40
              else if (n <? 2)%nat then 0 else b + 15)
        /\ (In (Lead.id lead) (map Lead.id leads) ->
            activeLead (handleUpdateLead upd leads) (Some (Lead.id lead))
            = Some (pushScored upd)))
    /\ onloadend transcripts false (Some lead) base64data = None
    /\ (forall onUpdateLead,
           onloadend transcripts onUpdateLead None base64data = None).
Proof.
  intros transcripts lead base64data leads n b. split; [|split].
  - unfold onloadend, heuristicOutcome. fold n.
    destruct (6 <? n)%nat; [|destruct (n <? 2)%nat];
      eexists; (split; [reflexivity|]); (split;
        [ unfold calculateLeadScore, b, LeadScorerSpec.base; simpl;
          destruct (Lead.priceRange lead =? "$$$$")%string;
          [|destruct (Lead.priceRange lead =? "$$$")%string;
            [|destruct (Lead.priceRange lead =? "$$")%string]]; reflexivity
        | intros Hin;
          match goal with
          | |- activeLead (handleUpdateLead ?u _) _ = _ =>
              exact (activeLead_updated u leads Hin)
          end ]).
  - unfold onloadend. destruct (heuristicOutcome transcripts). reflexivity.
  - intros onUpdateLead. unfold onloadend.
    destruct (heuristicOutcome transcripts), onUpdateLead; reflexivity.
Qed.

(** X22. For any [trim] that leaves the empty string empty: in the first
    session after the component is mounted the callbacks see empty
    accumulators for good, so whatever the remote side sends, the
    committed transcript is empty when the call ends: the end-call update
    is FAILED with Negative sentiment and score 0, at most the two trailing
    partials reach the post-call pipeline, and the extraction request is
    never made. *)
Theorem first_session_outcome :
  forall (trim : string -> string) (effectiveLead : option Lead.t)
         (events : list Event) (lead : Lead.t) (base64data : string)
         (i : PostCallInput.t) (summary0 learningStatus0 : option string),
    trim "" = "" ->
    let cl := fst (startSession (Session.mount effectiveLead)) in
    let st := run trim cl events (snd (startSession (Session.mount effectiveLead))) in
    PostCallInput.transcripts i = Session.transcripts st ->
    Session.transcripts st = []
    /\ (exists upd,
           onloadend (Session.transcripts st) true (Some lead) base64data
           = Some upd
           /\ Lead.status upd = FAILED
           /\ Lead.sentiment upd = Some Negative
           /\ calculateLeadScore (PartialLead.of_lead upd) = 0)
    /\ (List.length (fullTranscript trim i) <= 2)%nat
    /\ existsb isAskTraining
         (World.trace
            (snd (processPostCall trim i (startWorld summary0 learningStatus0))))
       = false.
Proof.
  intros trim effectiveLead events lead base64data i summary0 learningStatus0
    Hempty cl st Hi.
  assert (Hst : Session.transcripts st = []).
  { unfold st, cl. simpl.
    rewrite (empty_closure_never_commits trim _ _ Hempty). reflexivity. }
  assert (Hfull : (List.length (fullTranscript trim i) <= 2)%nat).
  { unfold fullTranscript. rewrite Hi, Hst.
    destruct (truthy (trim (PostCallInput.currentInput i)));
      destruct (truthy (trim (PostCallInput.currentOutput i))); simpl; lia. }
  split; [exact Hst|split; [|split; [exact Hfull|]]].
  - rewrite Hst. unfold onloadend. simpl.
    eexists. split; [reflexivity|]. simpl. repeat split.
    unfold calculateLeadScore. simpl.
    destruct (Lead.priceRange lead =? "$$$$")%string;
      [|destruct (Lead.priceRange lead =? "$$$")%string;
        [|destruct (Lead.priceRange lead =? "$$")%string]]; reflexivity.
  - apply short_transcript_no_extraction. lia.
Qed.

(** ** The audio helpers *)

Section Codec.

Lemma Z_of_byte_of_Z (z : Z) : Z_of_byte (byte_of_Z z) = z mod 256.
Proof.
  unfold Z_of_byte, byte_of_Z.
  assert (Hb : 0 <= z mod 256 < 256) by (apply Z.mod_pos_bound; lia).
  set (n := Z.to_N (z mod 256)).
  assert (Hn : (n < 256)%N) by (unfold n; lia).
  pose proof (byte_of_ascii_via_N (ascii_of_N n)) as H.
  symmetry in H. apply Byte.to_of_N in H. rewrite H.
  rewrite N_ascii_embedding by exact Hn. unfold n. lia.
Qed.

Lemma Z_of_byte_range (b : Byte.byte) : 0 <= Z_of_byte b < 256.
Proof.
  unfold Z_of_byte. pose proof (Byte.to_N_bounded b). lia.
Qed.

Lemma int16_of_bytes_of_int16 (v : Z) :
  int16 v -> int16_of_bytes (byte_of_Z v) (byte_of_Z (v / 256)) = v.
Proof.
  unfold int16, int16_of_bytes. intros Hv.
  rewrite !Z_of_byte_of_Z.
  destruct (Z.geb_spec (v mod 256 + 256 * ((v / 256) mod 256)) 32768);
    Z.to_euclidean_division_equations; lia.
Qed.

Lemma int16_of_bytes_range (lo hi : Byte.byte) : int16 (int16_of_bytes lo hi).
Proof.
  unfold int16, int16_of_bytes.
  pose proof (Z_of_byte_range lo). pose proof (Z_of_byte_range hi).
  destruct (Z.geb_spec (Z_of_byte lo + 256 * Z_of_byte hi) 32768); lia.
Qed.

Lemma ToInt16_range (x : Q) : int16 (ToInt16 x).
Proof.
  unfold int16, ToInt16.
  assert (0 <= truncate x mod 65536 < 65536) by (apply Z.mod_pos_bound; lia).
  destruct (Z.geb_spec (truncate x mod 65536) 32768); lia.
Qed.

Lemma Int16Array_roundtrip (l : list Z) :
  Forall int16 l ->
  Int16Array_of_Uint8Array (Uint8Array_of_Int16Array l) = Normal l.
Proof.
  induction 1 as [|v l Hv _ IH]; [reflexivity|].
  cbn [Uint8Array_of_Int16Array flat_map bytes_of_int16 app
         Int16Array_of_Uint8Array].
  fold (Uint8Array_of_Int16Array l). rewrite IH.
  now rewrite int16_of_bytes_of_int16.
Qed.

Lemma binaryString_chars (bytes : list Byte.byte) :
  list_ascii_of_string (binaryString bytes) = map ascii_of_byte bytes.
Proof.
  unfold binaryString.
  assert (H : forall acc,
             list_ascii_of_string
               (fold_left
                  (fun binary b => (binary ++ String (ascii_of_byte b) "")%string)
                  bytes acc)
             = (list_ascii_of_string acc ++ map ascii_of_byte bytes)%list).
  { induction bytes as [|b bytes IH]; intros acc; simpl.
    - now rewrite app_nil_r.
    - rewrite IH. 
      assert (Happ : forall s1 s2, list_ascii_of_string (s1 ++ s2)%string
                        = (list_ascii_of_string s1 ++ list_ascii_of_string s2)%list).
      { induction s1; intros; simpl; [reflexivity|now rewrite IHs1]. }
      rewrite Happ. simpl. now rewrite <- app_assoc. }
  apply (H ""%string).
Qed.


Lemma list_ind2 {B : Type} (P : list B -> Prop) :
  P [] -> (forall a, P [a]) -> (forall a b l, P l -> P (a :: b :: l)) ->
  forall l, P l.
Proof.
  intros H0 H1 H2.
  assert (H : forall l, P l /\ forall a, P (a :: l)).
  { induction l as [|b l [IH1 IH2]]; split; auto. }
  intros l. apply H.
Qed.

Lemma Int16Array_shape (data : list Byte.byte) :
  (Nat.even (List.length data) = false ->
   Int16Array_of_Uint8Array data = Throw "RangeError")
  /\ (Nat.even (List.length data) = true ->
      exists l, Int16Array_of_Uint8Array data = Normal l
                /\ List.length data = (2 * List.length l)%nat
                /\ Forall int16 l).
Proof.
  induction data as [|a|a b data [IHo IHe]] using list_ind2.
  - split; [discriminate|]. intros _. exists []. repeat split. constructor.
  - split; [reflexivity|discriminate].
  - change (Nat.even (List.length (a :: b :: data)))
      with (Nat.even (List.length data)).
    cbn [Int16Array_of_Uint8Array]. split.
    + intros Hodd. now rewrite (IHo Hodd).
    + intros Heven. destruct (IHe Heven) as [l [Hl [Hlen Hr]]].
      exists (int16_of_bytes a b :: l). rewrite Hl. repeat split.
      * simpl. lia.
      * constructor; [apply int16_of_bytes_range|exact Hr].
Qed.

Lemma map_nth_seq {B C : Type} (f : B -> C) (d : B) (l : list B) :
  map (fun i => f (nth (i * 1 + 0) l d)) (seq 0 (List.length l)) = map f l.
Proof.
  assert (H : forall k, map (fun i => f (nth (i - k) l d))
                           (seq k (List.length l)) = map f l).
  { induction l as [|a l IH]; intros k; simpl; [reflexivity|].
    rewrite Nat.sub_diag. f_equal.
    rewrite <- (IH (S k)). apply map_ext_in. intros i Hi.
    apply in_seq in Hi.
    replace (i - k)%nat with (S (i - S k)) by lia. reflexivity. }
  rewrite <- (H 0%nat). apply map_ext. intros i.
  now rewrite Nat.mul_1_r, Nat.add_0_r, Nat.sub_0_r.
Qed.

Lemma decode_binaryString (btoa atob : string -> string)
  (bytes : list Byte.byte) :
  (forall s, atob (btoa s) = s) ->
  decode atob (btoa (binaryString bytes)) = bytes.
Proof.
  intros Hinv. unfold decode. rewrite Hinv, binaryString_chars, map_map.
  erewrite map_ext; [apply map_id|]. intros b. apply byte_of_ascii_of_byte.
Qed.

(** X23. Encoding a non-empty block of microphone samples and decoding the
    result, through any [btoa] and [atob] that are inverse to each other,
    gives one channel with one frame per sample, each sample replaced by
    its 16-bit quantisation divided by 32768. *)
Theorem pcm_roundtrip :
  forall (btoa atob : string -> string) (data : list Q),
    (forall s, atob (btoa s) = s) ->
    data <> [] ->
    decodeAudioData (decode atob (encodePCM btoa data)) 24000 1
    = Normal
        (AudioBuffer.mk 1 (List.length data) 24000
           [map (fun x => (ToInt16 (x * 32768) # 32768)%Q) data]).
Proof.
  intros btoa atob data Hinv Hne.
  unfold encodePCM, decodeAudioData.
  rewrite (decode_binaryString btoa atob _ Hinv).
  rewrite Int16Array_roundtrip.
  - rewrite Nat.div_1_r, length_map.
    destruct (Nat.eqb_spec (List.length data) 0) as [Hz|_];
      [apply length_zero_iff_nil in Hz; congruence|].
    f_equal. f_equal. cbn [seq map]. f_equal.
    rewrite <- (length_map (fun x => ToInt16 (x * 32768)) data).
    rewrite (map_nth_seq (fun v => (v # 32768)%Q)).
    now rewrite map_map.
  - apply Forall_forall. intros v Hv. apply in_map_iff in Hv.
    destruct Hv as [x [<- _]]. apply ToInt16_range.
Qed.


Lemma truncate_nonneg (y : Q) :
  (0 <= y)%Q ->
  0 <= truncate y /\ (inject_Z (truncate y) <= y)%Q
  /\ (y < inject_Z (truncate y) + 1)%Q.
Proof.
  intros Hy. unfold truncate.
  apply Qle_bool_iff in Hy as Hb. rewrite Hb.
  split; [|split].
  - change 0 with (Qfloor 0). now apply Qfloor_resp_le.
  - apply Qfloor_le.
  - pose proof (Qlt_floor y) as H. rewrite inject_Z_plus in H. exact H.
Qed.

Lemma truncate_neg (y : Q) :
  (y < 0)%Q ->
  truncate y <= 0 /\ (y <= inject_Z (truncate y))%Q
  /\ (inject_Z (truncate y) - 1 < y)%Q.
Proof.
  intros Hy. unfold truncate.
  destruct (Qle_bool 0 y) eqn:Hb.
  - apply Qle_bool_iff in Hb. exfalso. apply (Qlt_irrefl 0).
    eapply Qle_lt_trans; eauto.
  - split; [|split].
    + change 0 with (Qceiling 0). apply Qceiling_resp_le.
      now apply Qlt_le_weak.
    + apply Qle_ceiling.
    + pose proof (Qceiling_lt y) as H.
      replace (Qceiling y - 1) with (Qceiling y + -1) in H by lia.
      rewrite inject_Z_plus in H. exact H.
Qed.

Lemma Qmake_32768 (k : Z) : (k # 32768 == inject_Z k * (1 # 32768))%Q.
Proof. unfold Qeq, inject_Z. simpl. lia. Qed.

Lemma inject_Z_lt_inv (a b : Z) : (inject_Z a < inject_Z b)%Q -> a < b.
Proof. unfold Qlt, inject_Z. simpl. lia. Qed.

Lemma ToInt16_in_range (x : Q) :
  int16 (truncate x) -> ToInt16 x = truncate x.
Proof.
  unfold int16, ToInt16. intros Hr.
  destruct (Z.geb_spec (truncate x mod 65536) 32768);
    Z.to_euclidean_division_equations; lia.
Qed.

Lemma ToInt16_wraps (x : Q) :
  32768 <= truncate x < 65536 -> ToInt16 x = truncate x - 65536.
Proof.
  unfold ToInt16. intros Hr.
  destruct (Z.geb_spec (truncate x mod 65536) 32768);
    Z.to_euclidean_division_equations; lia.
Qed.

(** X25. A sample in [-1, 1) is quantised by truncation toward zero: the
    decoded value differs from it by less than 1/32768 and has no opposite
    sign. A sample in [1, 2) is not saturated: its 16-bit value wraps
    around to a negative number. *)
Theorem sample_quantisation :
  forall x : Q,
    ((-1 <= x)%Q -> (x < 1)%Q ->
     let k := ToInt16 (x * 32768) in
     k = truncate (x * 32768)
     /\ (Qabs (x - (k # 32768)) < 1 # 32768)%Q
     /\ ((0 <= x)%Q -> 0 <= k) /\ ((x <= 0)%Q -> k <= 0))
    /\ ((1 <= x)%Q -> (x < 2)%Q ->
        ToInt16 (x * 32768) = truncate (x * 32768) - 65536
        /\ ToInt16 (x * 32768) < 0).
Proof.
  intros x. split.
  - intros Hlo Hhi k.
    assert (Hk : k = truncate (x * 32768)
                 /\ ((0 <= x)%Q -> 0 <= k /\ (inject_Z k <= x * 32768)%Q
                                   /\ (x * 32768 < inject_Z k + 1)%Q)
                 /\ ((x < 0)%Q -> k <= 0 /\ (x * 32768 <= inject_Z k)%Q
                                  /\ (inject_Z k - 1 < x * 32768)%Q)).
    { unfold k.
      destruct (Qlt_le_dec x 0) as [Hneg|Hpos].
      - assert (Hy : (x * 32768 < 0)%Q) by lra.
        destruct (truncate_neg _ Hy) as [H0 [H1 H2]].
        assert (Hr : -32768 <= truncate (x * 32768)).
        { assert (Hq : (inject_Z (-32768 - 1) < inject_Z (truncate (x * 32768)))%Q).
          { change (inject_Z (-32768 - 1)) with (-32769 # 1)%Q. lra. }
          apply inject_Z_lt_inv in Hq. lia. }
        rewrite ToInt16_in_range by (unfold int16; lia). split; [reflexivity|split].
        + intros Hx. exfalso. lra.
        + intros _. auto.
      - assert (Hy : (0 <= x * 32768)%Q) by lra.
        destruct (truncate_nonneg _ Hy) as [H0 [H1 H2]].
        assert (Hr : truncate (x * 32768) < 32768).
        { assert (Hq : (inject_Z (truncate (x * 32768)) < inject_Z 32768)%Q).
          { change (inject_Z 32768) with (32768 # 1)%Q. lra. }
          now apply inject_Z_lt_inv in Hq. }
        rewrite ToInt16_in_range by (unfold int16; lia). split; [reflexivity|split].
        + intros _. auto.
        + intros Hx. exfalso. lra. }
    destruct Hk as [Heq [Hpos Hneg]].
    split; [exact Heq|split; [|split]].
    + rewrite Qmake_32768. apply Qabs_Qlt_condition.
      destruct (Qlt_le_dec x 0) as [Hx|Hx].
      * destruct (Hneg Hx) as [_ [H1 H2]]. split; lra.
      * destruct (Hpos Hx) as [_ [H1 H2]]. split; lra.
    + intros Hx. now destruct (Hpos Hx).
    + intros Hx. destruct (Qlt_le_dec x 0) as [Hx'|Hx'].
      * now destruct (Hneg Hx').
      * destruct (Hpos Hx') as [_ [H1 H2]].
        assert (Hq : (inject_Z k < inject_Z 1)%Q).
        { change (inject_Z 1) with 1%Q. lra. }
        apply inject_Z_lt_inv in Hq. lia.
  - intros Hlo Hhi.
    assert (Hy : (0 <= x * 32768)%Q) by lra.
    destruct (truncate_nonneg _ Hy) as [H0 [H1 H2]].
    assert (Hr : 32768 <= truncate (x * 32768) < 65536).
    { split.
      - assert (Hq : (inject_Z (32768 - 1) < inject_Z (truncate (x * 32768)))%Q).
        { change (inject_Z (32768 - 1)) with (32767 # 1)%Q. lra. }
        apply inject_Z_lt_inv in Hq. lia.
      - assert (Hq : (inject_Z (truncate (x * 32768)) < inject_Z 65536)%Q).
        { change (inject_Z 65536) with (65536 # 1)%Q. lra. }
        now apply inject_Z_lt_inv in Hq. }
    rewrite ToInt16_wraps by exact Hr. split; [reflexivity|lia].
Qed.

(** X26. A decoded sample, v/32768 for a 16-bit v, is encoded back to v
    exactly. *)
Theorem int16_sample_exact :
  forall v : Z, int16 v -> ToInt16 ((v # 32768) * 32768) = v.
Proof.
  intros v Hv. unfold int16 in Hv.
  assert (Ht : truncate ((v # 32768) * 32768) = v).
  { unfold truncate.
    assert (Hf : Qfloor ((v # 32768) * 32768) = v).
    { unfold Qfloor, Qmult. simpl. apply Z.div_mul. lia. }
    assert (Hc : Qceiling ((v # 32768) * 32768) = v).
    { unfold Qceiling, Qfloor, Qopp, Qmult. simpl.
      replace (- (v * 32768)) with ((- v) * 32768) by lia.
      rewrite Z.div_mul by lia. lia. }
    destruct (Qle_bool 0 ((v # 32768) * 32768)); assumption. }
  rewrite ToInt16_in_range; rewrite Ht; [reflexivity|exact Hv].
Qed.

(** X24. [decodeAudioData] fails with a RangeError on a payload with an odd
    number of bytes and with a NotSupportedError on an empty one; any other
    payload gives a single channel with half as many frames as bytes, so a
    positive duration, and every sample in [-1, 1). *)
Theorem decodeAudioData_shape :
  forall data : list Byte.byte,
    (Nat.even (List.length data) = false ->
     decodeAudioData data 24000 1 = Throw "RangeError")
    /\ decodeAudioData [] 24000 1 = Throw "NotSupportedError"
    /\ (Nat.even (List.length data) = true -> data <> [] ->
        exists buffer channel,
          decodeAudioData data 24000 1 = Normal buffer
          /\ buffer = AudioBuffer.mk 1 (List.length channel) 24000 [channel]
          /\ List.length data = (2 * List.length channel)%nat
          /\ 0 < AudioBuffer.duration buffer
          /\ Forall (fun x => (-1 <= x)%Q /\ (x < 1)%Q) channel).
Proof.
  intros data. unfold decodeAudioData.
  destruct (Int16Array_shape data) as [Hodd Heven]. split; [|split].
  - intros H. now rewrite (Hodd H).
  - reflexivity.
  - intros H Hne. destruct (Heven H) as [l [Hl [Hlen Hr]]]. rewrite Hl.
    rewrite Nat.div_1_r.
    destruct l as [|v l]; [destruct data; [congruence|discriminate]|].
    cbn [List.length Nat.eqb].
    exists (AudioBuffer.mk 1 (S (List.length l)) 24000
              [map (fun v => (v # 32768)%Q) (v :: l)]),
      (map (fun v => (v # 32768)%Q) (v :: l)).
    rewrite length_map. split; [|split; [|split; [|split]]].
    + f_equal. f_equal. cbn [seq map]. f_equal.
      apply (map_nth_seq (fun v => (v # 32768)%Q) 0 (v :: l)).
    + reflexivity.
    + exact Hlen.
    + unfold AudioBuffer.duration. simpl AudioBuffer.length. lia.
    + apply Forall_forall. intros x Hx. apply in_map_iff in Hx.
      destruct Hx as [v' [<- Hv]]. rewrite Forall_forall in Hr.
      specialize (Hr v' Hv). unfold int16 in Hr.
      unfold Qle, Qlt. simpl. lia.
Qed.

End Codec.

(* ================================================================== *)
(** * Part V: the further properties on concrete inputs                *)
(* ================================================================== *)

Lemma handleUpdateLead_unknown_id_witness :
  handleUpdateLead Sample.dummyLead MoreSamples.store = MoreSamples.store.
Proof.
  apply handleUpdateLead_unknown_id.
  vm_compute. intros [H|[H|[H|[]]]]; discriminate H.
Defined.

Lemma handleUpdateLead_compose_witness :
  handleUpdateLead MoreSamples.update
    (handleUpdateLead MoreSamples.update MoreSamples.store)
  = handleUpdateLead MoreSamples.update MoreSamples.store.
Proof.
  exact (proj1 (handleUpdateLead_compose MoreSamples.update MoreSamples.update
                  MoreSamples.store) eq_refl).
Defined.

Lemma activeLead_after_update_witness :
  activeLead (handleUpdateLead MoreSamples.update MoreSamples.store)
    (Some "nyc-2")
  = Some (pushScored MoreSamples.update).
Proof.
  apply (proj1 (activeLead_after_update MoreSamples.update MoreSamples.store)).
  vm_compute. right. left. reflexivity.
Defined.

Lemma handleUpdateLead_replaces_one_witness :
  exists before old after,
    MoreSamples.store = before ++ old :: after
    /\ Lead.id old = "nyc-2"
    /\ handleUpdateLead MoreSamples.update MoreSamples.store
       = before ++ pushScored MoreSamples.update :: after.
Proof.
  apply (handleUpdateLead_replaces_one MoreSamples.update MoreSamples.store).
  - apply distinct_NoDup. vm_compute. reflexivity.
  - vm_compute. right. left. reflexivity.
Defined.

Lemma filteredLeads_content_witness :
  In (nth 1 MoreSamples.store Sample.dummyLead)
    (filteredLeads asciiLowerCase (fun _ _ => 0) MoreSamples.store "keller"
       by_name).
Proof.
  apply (proj2 (proj1 (proj2 (filteredLeads_content asciiLowerCase
                                (fun _ _ => 0) MoreSamples.store "keller"
                                by_name)) _)).
  split; [vm_compute; right; left; reflexivity | vm_compute; reflexivity].
Defined.

Lemma filteredLeads_empty_search_witness :
  Permutation
    (filteredLeads asciiLowerCase (fun _ _ => 0) MoreSamples.store "" by_score)
    MoreSamples.store.
Proof.
  apply filteredLeads_empty_search. reflexivity.
Defined.

Lemma green_score_bar_witness :
  getScoreColor
    (calculateLeadScore
       (PartialLead.of_lead (bookedLead Sample.dummyLead (Some Negative))))
  = "bg-green-500".
Proof.
  apply (proj2 (green_score_bar (bookedLead Sample.dummyLead (Some Negative)))).
  left. reflexivity.
Defined.

Lemma selectRelevantSnippets_selects_witness :
  Permutation
    (selectRelevantSnippets asciiLowerCase Sample.dummyLead
       [Sample.plainSnippet; Sample.ownSnippet])
    [Sample.plainSnippet; Sample.ownSnippet].
Proof.
  apply (proj2 (selectRelevantSnippets_selects asciiLowerCase Sample.dummyLead
                  [Sample.plainSnippet; Sample.ownSnippet])).
  simpl. lia.
Defined.

Lemma learned_snippet_ranks_first_witness :
  selectRelevantSnippets asciiLowerCase Sample.dummyLead
    (handleLearnFromCall MoreSamples.learnedSnippet Sample.kb)
  = MoreSamples.learnedSnippet
      :: firstn 2 (selectRelevantSnippets asciiLowerCase Sample.dummyLead
                     Sample.kb).
Proof.
  apply learned_snippet_ranks_first.
  repeat constructor; vm_compute; discriminate.
Defined.

Lemma clock_forward_only_witness :
  Session.nextStartTime (Session.mount None)
  <= Session.nextStartTime
       (run asciiTrim (Closure.mk "" "")
          [Message Sample.env1 (Some (Sample.audio 2400)); Ended 0]
          (Session.mount None)).
Proof.
  apply (clock_forward_only asciiTrim).
  - repeat constructor. simpl. lia.
  - reflexivity.
Defined.

Lemma speaking_iff_active_witness :
  speaking_while_active
    (run asciiTrim (Closure.mk "" "")
       [Message Sample.env1 (Some (Sample.audio 2400)); Ended 0]
       (Session.mount None)).
Proof.
  apply (speaking_iff_active asciiTrim).
  split; [discriminate | intros H; now contradiction H].
Defined.

Lemma processPostCall_edges_witness :
  exists w' rest,
    processPostCall asciiTrim Sample.postCallInput (startWorld None None)
    = (Normal tt, w')
    /\ World.isSummarizing w' = false
    /\ World.trace w'
       = [] ++ AskSummary (transcriptText (fullTranscript asciiTrim Sample.postCallInput))
            :: rest.
Proof.
  apply (proj2 (proj2 (processPostCall_edges asciiTrim Sample.postCallInput
                         (startWorld None None)))).
  vm_compute. discriminate.
Defined.

Lemma processPostCall_lead_updates_witness :
  exists cur analysis,
    PostCallInput.latestLead MoreSamples.bookedInput = Some cur
    /\ PostCallInput.summaryReply MoreSamples.bookedInput = Normal analysis
    /\ Analysis.outcome analysis = "BOOKED"
    /\ PostCallInput.onUpdateLead MoreSamples.bookedInput = true
    /\ bookedLead Sample.dummyLead (Some Positive)
       = bookedLead cur (Analysis.sentiment analysis)
    /\ Lead.status (bookedLead Sample.dummyLead (Some Positive)) = BOOKED
    /\ Lead.score (bookedLead Sample.dummyLead (Some Positive)) = 100.
Proof.
  apply (proj2 (processPostCall_lead_updates asciiTrim MoreSamples.bookedInput None None)).
  vm_compute. right. left. reflexivity.
Defined.

Lemma processPostCall_learns_witness :
  51 <= snippetScore asciiLowerCase Sample.dummyLead MoreSamples.learnedSnippet.
Proof.
  apply (proj2 (processPostCall_learns asciiTrim asciiLowerCase MoreSamples.bookedInput
                  None None) MoreSamples.learnedSnippet).
  vm_compute. do 3 right. left. reflexivity.
Defined.

Lemma end_call_score_witness :
  exists upd,
    onloadend Sample.sixEntries true (Some MoreSamples.update) "data:audio/webm;base64,AAAA"
    = Some upd
    /\ activeLead (handleUpdateLead upd MoreSamples.store) (Some "nyc-2")
       = Some (pushScored upd).
Proof.
  destruct (proj1 (end_call_score Sample.sixEntries MoreSamples.update
                     "data:audio/webm;base64,AAAA" MoreSamples.store))
    as [upd [Hupd [_ Hfind]]].
  exists upd. split; [exact Hupd|].
  apply Hfind. vm_compute. right. left. reflexivity.
Defined.

Lemma first_session_outcome_witness :
  Session.transcripts
    (run asciiTrim (fst (startSession (Session.mount None)))
       MoreSamples.firstSessionEvents
       (snd (startSession (Session.mount None))))
  = [].
Proof.
  exact (proj1 (first_session_outcome asciiTrim None MoreSamples.firstSessionEvents
                  Sample.dummyLead "data:audio/webm;base64,AAAA"
                  MoreSamples.partialOnlyInput None None eq_refl eq_refl)).
Defined.

Lemma pcm_roundtrip_witness :
  decodeAudioData
    (decode (fun s => s) (encodePCM (fun s => s) [1 # 2; -1 # 1; 0]%Q))
    24000 1
  = Normal
      (AudioBuffer.mk 1 3 24000
         [map (fun x => (ToInt16 (x * 32768) # 32768)%Q) [1 # 2; -1 # 1; 0]%Q]).
Proof.
  apply (pcm_roundtrip (fun s => s) (fun s => s) [1 # 2; -1 # 1; 0]%Q).
  - reflexivity.
  - discriminate.
Defined.

Lemma decodeAudioData_shape_witness :
  exists buffer channel,
    decodeAudioData MoreSamples.twoBytes 24000 1 = Normal buffer
    /\ buffer = AudioBuffer.mk 1 (List.length channel) 24000 [channel]
    /\ List.length MoreSamples.twoBytes = (2 * List.length channel)%nat
    /\ 0 < AudioBuffer.duration buffer
    /\ Forall (fun x => (-1 <= x)%Q /\ (x < 1)%Q) channel.
Proof.
  apply (proj2 (proj2 (decodeAudioData_shape MoreSamples.twoBytes))).
  - reflexivity.
  - discriminate.
Defined.

Lemma sample_quantisation_witness :
  ToInt16 ((1 # 2) * 32768) = truncate ((1 # 2) * 32768).
Proof.
  destruct (proj1 (sample_quantisation (1 # 2))) as [Hk _].
  - vm_compute. discriminate.
  - vm_compute. reflexivity.
  - exact Hk.
Defined.

Lemma int16_sample_exact_witness :
  ToInt16 ((-32768 # 32768) * 32768) = -32768.
Proof.
  apply int16_sample_exact. unfold int16. lia.
Defined.

(** Sanity checks of the audio helpers on small inputs. *)
Example audio_helper_examples :
  ToInt16 ((1 # 2) * 32768) = 16384
  /\ ToInt16 (1 * 32768) = -32768
  /\ ToInt16 ((-1 # 3) * 32768) = -10922
  /\ Int16Array_of_Uint8Array MoreSamples.twoBytes = Normal [-32768]
  /\ Uint8Array_of_Int16Array [-2; 258] = [Byte.xfe; Byte.xff; Byte.x02; Byte.x01]
  /\ Int16Array_of_Uint8Array [Byte.x00] = Throw "RangeError".
Proof. repeat split; vm_compute; reflexivity. Qed.

(** ** Playing recordings in the lead table *)

Lemma playerStep_exclusive (st : Player.t) (a : PlayerAction) :
  exclusive st -> exclusive (playerStep st a).
Proof.
  unfold exclusive. intros [Hs Hp].
  destruct a as [id src | el]; simpl.
  - unfold toggleAudio.
    destruct (Player.audioEl st) as [cur|] eqn:Hcur.
    + assert (Hpause : Player.pause cur (Player.sounding st) = []).
      { destruct Hs as [->|[el' [src' [Hel ->]]]]; [reflexivity|].
        injection Hel as <-. simpl. now rewrite Nat.eqb_refl. }
      rewrite Hpause.
      destruct (match Player.playingId st with
                | Some p => (p =? id)%string
                | None => false
                end); simpl.
      * split; [now left | intros H; now contradiction H].
      * split; [right; eauto | discriminate].
    + destruct Hs as [Hnil|[el' [src' [Hel _]]]]; [|discriminate].
      rewrite Hnil. simpl. split; [right; eauto | discriminate].
  - unfold audioEnded.
    destruct (existsb _ (Player.sounding st)) eqn:Hex; [|auto].
    simpl. destruct Hs as [Hnil|[el' [src' [Hel Hso]]]].
    + rewrite Hnil in Hex. discriminate.
    + rewrite Hso in *. simpl in Hex. rewrite orb_false_r in Hex.
      simpl. rewrite Hex. simpl.
      split; [now left | intros H; now contradiction H].
Qed.

(** X27. In the lead table at most one recording plays at any time: after
    any sequence of clicks on play buttons and of recordings reaching their
    end, no element but the current one is playing, and a lead is marked
    as playing only while its recording is. *)
Theorem one_recording_at_a_time :
  forall actions : list PlayerAction,
    let st := fold_left playerStep actions Player.initial in
    exclusive st /\ (List.length (Player.sounding st) <= 1)%nat.
Proof.
  intros actions.
  assert (H : forall st0, exclusive st0 ->
                          exclusive (fold_left playerStep actions st0)).
  { induction actions as [|a actions IH]; intros st0 H0; simpl; [exact H0|].
    apply IH. now apply playerStep_exclusive. }
  intros st.
  assert (He : exclusive st).
  { apply H. unfold exclusive. simpl.
    split; [now left | intros Hn; now contradiction Hn]. }
  split; [exact He|].
  destruct He as [[->|[el [src [_ ->]]]] _]; simpl; lia.
Qed.

Example toggleAudio_example :
  let st1 := toggleAudio "nyc-1" "data:a" Player.initial in
  let st2 := toggleAudio "nyc-2" "data:b" st1 in
  let st3 := toggleAudio "nyc-2" "data:b" st2 in
  Player.sounding st1 = [(0%nat, "data:a")]
  /\ Player.sounding st2 = [(1%nat, "data:b")]
  /\ Player.playingId st2 = Some "nyc-2"
  /\ Player.sounding st3 = []
  /\ Player.playingId st3 = None.
Proof. repeat split; reflexivity. Qed.
